(** * Groupie tracker: the fetch-join-aggregate pipeline and its readers

    A shallow embedding of the Go program (package [main]): the data
    structures decoded from the remote API, [gatherData] with its four
    goroutines and the combine loop, the package-level slice [artistData],
    and the HTTP handlers that read it ([indexHandler],
    [singleArtistHandler], [aboutHandler], [searchHandler]).

    Conventions.
    - Go's [int] is [Z]; a [string] is Rocq's [string] (a sequence of
      bytes); a slice is a [list]; [map[string]T] is [gmap string T].
    - A run-time panic (index out of range, failed type assertion) is a
      value of [result], threaded with the monad notation of stdpp.
    - The goroutines of [gatherData] are run by an explicit schedule, one
      atomic step at a time, the steps interleaving in any order.
      [errs = append(errs, err)] is given twice. Slice by slice it is two
      steps, the read of [errs] and the write of the extended slice; this
      is what the program does as long as the appends of two goroutines
      do not overlap, which is the case whenever at most one fetch fails.
      In place ([InPlace]) the write is split as the compiler emits it,
      the header of the slice first and the element after it; this is
      where two overlapping appends leave a nil element in [errs].
    - The remote API, the Unicode tables behind [strings.ToLower] and the
      template engine are parameters. *)

From Stdlib Require Import ZArith DecimalString DecimalPos Ascii String.
From stdpp Require Import gmap strings list fin_maps.

(** ** Run-time panics *)

Inductive panic : Type :=
| IndexOutOfRange (index len : Z)      (* index out of range [index] with length len *)
| InterfaceConversion (key : string).  (* failed type assertion on the value under key *)

Inductive result (A : Type) : Type :=
| Ok (a : A)
| Panicked (p : panic).
Arguments Ok {A} a.
Arguments Panicked {A} p.

#[global] Instance result_ret : MRet result := fun A a => Ok a.
#[global] Instance result_bind : MBind result := fun A B f r =>
  match r with
  | Ok a => f a
  | Panicked p => Panicked p
  end.

(** [s[i]] on a slice: the element, or the bounds-check panic. *)
Definition index {A} (s : list A) (i : Z) : result A :=
  if (i <? 0)%Z then Panicked (IndexOutOfRange i (Z.of_nat (length s)))
  else match s !! Z.to_nat i with
       | Some a => Ok a
       | None => Panicked (IndexOutOfRange i (Z.of_nat (length s)))
       end.

(** ** The parts of [strings] and [strconv] the program calls *)

Definition byteVal (c : ascii) : Z := Z.of_N (N_of_ascii c).

Definition isUpper (c : ascii) : bool := (65 <=? byteVal c)%Z && (byteVal c <=? 90)%Z.

(** ['A'..'Z'] moved by ['a' - 'A']; every other byte unchanged. *)
Definition lowerByte (c : ascii) : ascii :=
  if isUpper c then ascii_of_N (N_of_ascii c + 32) else c.

Fixpoint mapBytes (f : ascii -> ascii) (s : string) : string :=
  match s with
  | EmptyString => EmptyString
  | String c s' => String (f c) (mapBytes f s')
  end.

(** No byte at or above [utf8.RuneSelf]. *)
Fixpoint isASCII (s : string) : bool :=
  match s with
  | EmptyString => true
  | String c s' => (byteVal c <? 128)%Z && isASCII s'
  end.

(** [strings.HasPrefix]. *)
Fixpoint HasPrefix (s prefix : string) : bool :=
  match prefix, s with
  | EmptyString, _ => true
  | String _ _, EmptyString => false
  | String p prefix', String c s' => if Ascii.eqb c p then HasPrefix s' prefix' else false
  end.

(** [strings.Contains]: [substr] occurs in [s] at some byte offset. *)
Fixpoint Contains (s substr : string) : bool :=
  HasPrefix s substr ||
  match s with
  | EmptyString => false
  | String _ s' => Contains s' substr
  end.

(** [strconv.Itoa]: decimal digits, with a leading minus sign below zero. *)
Definition Itoa (i : Z) : string := NilZero.string_of_int (Z.to_int i).

Definition minInt : Z := - 2 ^ 63.
Definition maxInt : Z := 2 ^ 63 - 1.

Definition digitVal (c : ascii) : option Z :=
  if (48 <=? byteVal c)%Z && (byteVal c <=? 57)%Z then Some (byteVal c - 48)%Z else None.

Fixpoint parseDigits (s : string) (n : Z) : option Z :=
  match s with
  | EmptyString => Some n
  | String c s' =>
      match digitVal c with
      | Some d => parseDigits s' (n * 10 + d)%Z
      | None => None
      end
  end.

(** [strconv.Atoi]: an optional sign, then one or more decimal digits, the
    value within the 64-bit [int]. [None] stands for a non-nil error
    (syntax or range); the program never looks inside it. *)
Definition Atoi (s : string) : option Z :=
  match s with
  | EmptyString => None
  | String c rest =>
      let neg := Ascii.eqb c "-" in
      let body := if neg || Ascii.eqb c "+" then rest else s in
      match body with
      | EmptyString => None
      | String _ _ =>
          match parseDigits body 0 with
          | Some n =>
              let v := if neg then (- n)%Z else n in
              if (minInt <=? v)%Z && (v <=? maxInt)%Z then Some v else None
          | None => None
          end
      end
  end.

(** ** Data structures for JSON parsing *)

Module Data.
Record t : Type := mk
  { Artists : string; Locations : string; Dates : string; Relation : string }.
End Data.

Module Artist.
Record t : Type := mk
  { ID : Z;
    Image : string;
    Name : string;
    Members : list string;
    CreationDate : Z;
    FirstAlbum : string;
    Locations : string;
    ConcertDates : string;
    Relations : string }.
End Artist.

Module Locations.
Record entry : Type := mkEntry
  { ID : Z; Locations : list string; Dates : string }.
Record t : Type := mk { Index : list entry }.
End Locations.

Module Dates.
Record entry : Type := mkEntry { ID : Z; Dates : list string }.
Record t : Type := mk { Index : list entry }.
End Dates.

Module Relation.
Record entry : Type := mkEntry
  { ID : Z; DatesLocations : gmap string (list string) }.
Record t : Type := mk { Index : list entry }.
End Relation.

(** The dynamic types stored in [map[string]interface{}]. *)
Inductive value : Type :=
| VInt (i : Z)
| VString (s : string)
| VStrings (l : list string)
| VRelation (m : gmap string (list string)).

(** [artistData]: the processed artist data, one map per artist. *)
Abbreviation store := (list (gmap string value)).

(** Go's [error] values: the message. *)
Abbreviation error := string.

(** The map literal built by one turn of the combine loop. *)
Definition compositeRecord (a : Artist.t) (l : Locations.entry)
    (d : Dates.entry) (r : Relation.entry) : gmap string value :=
  list_to_map
    [ ("Id"%string, VInt (Artist.ID a));
      ("Name"%string, VString (Artist.Name a));
      ("Image"%string, VString (Artist.Image a));
      ("Members"%string, VStrings (Artist.Members a));
      ("CreationDate"%string, VInt (Artist.CreationDate a));
      ("FirstAlbum"%string, VString (Artist.FirstAlbum a));
      ("Locations"%string, VStrings (Locations.Locations l));
      ("Dates"%string, VStrings (Dates.Dates d));
      ("Relation"%string, VRelation (Relation.DatesLocations r)) ].

(** The combine loop [for x := 0; x < len(artists); x++]: [todo] counts the
    turns still to run, [len(artists) - x]. The operands of the literal are
    evaluated in source order, so the first failing bounds check decides the
    panic; the records appended before it stay in [artistData]. *)
Fixpoint combineFrom (todo : nat) (x : Z) (artists : list Artist.t)
    (locations : Locations.t) (dates : Dates.t) (relation : Relation.t)
    (artistData : store) : result unit * store :=
  match todo with
  | O => (Ok tt, artistData)
  | S todo' =>
      let literal : result (gmap string value) :=
        a ← index artists x;
        l ← index (Locations.Index locations) x;
        d ← index (Dates.Index dates) x;
        r ← index (Relation.Index relation) x;
        mret (compositeRecord a l d r) in
      match literal with
      | Ok m => combineFrom todo' (x + 1)%Z artists locations dates relation (artistData ++ [m])
      | Panicked p => (Panicked p, artistData)
      end
  end.

Definition combine (artists : list Artist.t) (locations : Locations.t)
    (dates : Dates.t) (relation : Relation.t) (artistData : store)
    : result unit * store :=
  combineFrom (length artists) 0 artists locations dates relation artistData.

(** ** The remote API *)

(** What [fetchData(url, target)] yields for each of the five target types:
    the error of [http.Get] or of the JSON decoder, or the decoded value. *)
Record Remote : Type :=
  { getData : string -> error + Data.t;
    getArtists : string -> error + list Artist.t;
    getLocations : string -> error + Locations.t;
    getRelation : string -> error + Relation.t;
    getDates : string -> error + Dates.t }.

Definition apiURL : string := "https://groupietrackers.herokuapp.com/api".

(** ** The four goroutines of [gatherData] *)

(** In launch order. *)
Inductive goroutine : Type := GArtists | GLocations | GRelation | GDates.

#[global] Instance goroutine_eq_dec : EqDecision goroutine.
Proof. solve_decision. Defined.

Definition goroutines : list goroutine := [GArtists; GLocations; GRelation; GDates].

(** Where a goroutine stands. [errs = append(errs, err)] reads the shared
    slice ([Appending] to [Storing]) and then writes the extended one
    ([Storing] to [Done]); nothing holds the other goroutines back in
    between. The write is taken as one step here; [InPlace] below splits
    it. *)
Inductive pc : Type :=
| Fetching                                   (* fetchData has not returned *)
| Appending (err : error)                    (* err != nil, errs not read yet *)
| Storing (seen : list error) (err : error)  (* errs read as seen, not written yet *)
| Done.                                      (* the deferred wg.Done() has run *)

(** The variables of [gatherData] shared with its goroutines. *)
Record Locals : Type := mkLocals
  { pcs : goroutine -> pc;
    errs : list error;
    artists : list Artist.t;
    locations : Locations.t;
    relation : Relation.t;
    dates : Dates.t }.

Definition setPc (g : goroutine) (p : pc) (st : Locals) : Locals :=
  mkLocals (fun g' => if decide (g' = g) then p else pcs st g')
    (errs st) (artists st) (locations st) (relation st) (dates st).

Definition setErrs (e : list error) (st : Locals) : Locals :=
  mkLocals (pcs st) e (artists st) (locations st) (relation st) (dates st).

Definition setArtists (v : list Artist.t) (st : Locals) : Locals :=
  mkLocals (pcs st) (errs st) v (locations st) (relation st) (dates st).

Definition setLocations (v : Locations.t) (st : Locals) : Locals :=
  mkLocals (pcs st) (errs st) (artists st) v (relation st) (dates st).

Definition setRelation (v : Relation.t) (st : Locals) : Locals :=
  mkLocals (pcs st) (errs st) (artists st) (locations st) v (dates st).

Definition setDates (v : Dates.t) (st : Locals) : Locals :=
  mkLocals (pcs st) (errs st) (artists st) (locations st) (relation st) v.

(** The state at [wg.Add(4)]: zero values everywhere. *)
Definition spawn : Locals :=
  mkLocals (fun _ => Fetching) [] [] (Locations.mk []) (Relation.mk []) (Dates.mk []).

(** The error of goroutine [g]'s fetch, if it fails. *)
Definition failure (remote : Remote) (data : Data.t) (g : goroutine) : option error :=
  match g with
  | GArtists =>
      match getArtists remote (Data.Artists data) with inl e => Some e | inr _ => None end
  | GLocations =>
      match getLocations remote (Data.Locations data) with inl e => Some e | inr _ => None end
  | GRelation =>
      match getRelation remote (Data.Relation data) with inl e => Some e | inr _ => None end
  | GDates =>
      match getDates remote (Data.Dates data) with inl e => Some e | inr _ => None end
  end.

(** [fetchData] of goroutine [g] returns: a decoded value lands in the
    goroutine's own variable and the goroutine is done; an error sends it
    to the append. (What a failed decode leaves in the variable is never
    read: [gatherData] returns before the combine loop.) *)
Definition fetched (remote : Remote) (data : Data.t) (g : goroutine) (st : Locals) : Locals :=
  match g with
  | GArtists =>
      match getArtists remote (Data.Artists data) with
      | inl err => setPc g (Appending err) st
      | inr v => setPc g Done (setArtists v st)
      end
  | GLocations =>
      match getLocations remote (Data.Locations data) with
      | inl err => setPc g (Appending err) st
      | inr v => setPc g Done (setLocations v st)
      end
  | GRelation =>
      match getRelation remote (Data.Relation data) with
      | inl err => setPc g (Appending err) st
      | inr v => setPc g Done (setRelation v st)
      end
  | GDates =>
      match getDates remote (Data.Dates data) with
      | inl err => setPc g (Appending err) st
      | inr v => setPc g Done (setDates v st)
      end
  end.

(** One atomic step of goroutine [g]; a goroutine that is done has none. *)
Definition step (remote : Remote) (data : Data.t) (g : goroutine) (st : Locals) : Locals :=
  match pcs st g with
  | Fetching => fetched remote data g st
  | Appending err => setPc g (Storing (errs st) err) st
  | Storing seen err => setPc g Done (setErrs (seen ++ [err]) st)
  | Done => st
  end.

(** The goroutines step in the order the schedule names them. *)
Definition run (remote : Remote) (data : Data.t) (sched : list goroutine) (st : Locals) : Locals :=
  foldl (fun st g => step remote data g st) st sched.

(** A goroutine run from its fetch to its end with no other step in
    between: three steps are the most it takes. *)
Definition alone (g : goroutine) : list goroutine := [g; g; g].

(** [wg.Wait()]: the caller resumes once every goroutine is done. A
    schedule that stops earlier is completed in launch order. *)
Definition wait (remote : Remote) (data : Data.t) (st : Locals) : Locals :=
  run remote data (goroutines ≫= alone) st.

(** The fan-out: the state in which [gatherData] resumes after the barrier. *)
Definition fanOut (remote : Remote) (data : Data.t) (sched : list goroutine) : Locals :=
  wait remote data (run remote data sched spawn).

(** Two goroutines are inside their appends at once, one of them about to
    write [errs]: conflicting accesses that nothing orders. *)
Definition inAppend (p : pc) : bool :=
  match p with Appending _ | Storing _ _ => true | _ => false end.

Definition aboutToWrite (p : pc) : bool :=
  match p with Storing _ _ => true | _ => false end.

Definition racing (st : Locals) : bool :=
  existsb (fun g1 => existsb (fun g2 =>
    bool_decide (g1 <> g2) && aboutToWrite (pcs st g1) && inAppend (pcs st g2))
    goroutines) goroutines.

(** ** gatherData *)

(** [gatherData] fetches and organizes data into [artistData]. The result
    is the returned [error] ([None] for nil) or the panic that ended the
    call, with [artistData] as the call leaves it. *)
Definition gatherData (remote : Remote) (sched : list goroutine) (artistData : store)
    : result (option error) * store :=
  match getData remote apiURL with
  | inl err => (Ok (Some err), artistData)
  | inr data =>
      let st := fanOut remote data sched in
      match errs st with
      | err :: _ => (Ok (Some err), artistData)
      | [] =>
          match combine (artists st) (locations st) (dates st) (relation st) artistData with
          | (Ok _, artistData') => (Ok None, artistData')
          | (Panicked p, artistData') => (Panicked p, artistData')
          end
      end
  end.

(** ** Requests and what a handler does to its response writer *)

Record Request : Type := mkRequest
  { Method : string;                       (* r.Method *)
    Path : string;                         (* r.URL.Path *)
    Query : gmap string (list string) }.   (* r.URL.Query() *)

(** [url.Values.Get]: the first value under the key, or the empty string. *)
Definition Get (v : gmap string (list string)) (key : string) : string :=
  match v !! key with
  | Some (x :: _) => x
  | _ => EmptyString
  end.

Module SearchResult.
Record t : Type := mk { Type_ : string; Value : string; ID : Z }.
End SearchResult.

(** The data handed to a template. *)
Inductive tdata : Type :=
| TNil
| TStore (artistData : store)
| TRecord (artist : gmap string value).

(** The calls a handler makes on [w], in order. *)
Inductive call : Type :=
| HttpError (msg : string) (code : Z)          (* http.Error(w, msg, code) *)
| ExecuteTemplate (name : string) (data : tdata) (* templates.ExecuteTemplate(w, name, data) *)
| SetHeader (key val : string)                  (* w.Header().Set(key, val) *)
| Encode (results : list SearchResult.t).       (* json.NewEncoder(w).Encode(results) *)

(** Type assertions [artist[key].(T)]: a missing key holds the nil
    interface, which fails every assertion. *)
Definition assertString (artist : gmap string value) (key : string) : result string :=
  match artist !! key with
  | Some (VString s) => Ok s
  | _ => Panicked (InterfaceConversion key)
  end.

Definition assertInt (artist : gmap string value) (key : string) : result Z :=
  match artist !! key with
  | Some (VInt i) => Ok i
  | _ => Panicked (InterfaceConversion key)
  end.

Definition assertStrings (artist : gmap string value) (key : string) : result (list string) :=
  match artist !! key with
  | Some (VStrings l) => Ok l
  | _ => Panicked (InterfaceConversion key)
  end.

(** [for _, x := range l { body }] over a loop variable [s] the body updates. *)
Fixpoint forRange {A S : Type} (body : S -> A -> result S) (l : list A) (s : S) : result S :=
  match l with
  | [] => Ok s
  | x :: l' => s' ← body s x; forRange body l' s'
  end.

Section Handlers.

(** [strings.Map(unicode.ToLower, s)], the path [strings.ToLower] takes
    for a string that is not pure ASCII; it needs the Unicode tables. *)
Variable unicodeLower : string -> string.

(** [templates.ExecuteTemplate(w, name, data)]: nil, or the error of the
    template engine. *)
Variable executeTemplate : string -> tdata -> option error.

(** [strings.ToLower]. *)
Definition ToLower (s : string) : string :=
  if isASCII s then mapBytes lowerByte s else unicodeLower s.

(** The shape shared by the three rendering handlers:
    [if err := templates.ExecuteTemplate(...); err != nil { http.Error(...) }]. *)
Definition render (name : string) (data : tdata) : list call :=
  ExecuteTemplate name data ::
  match executeTemplate name data with
  | Some err => [HttpError ("500 ! " +:+ err) 500]
  | None => []
  end.

(** [indexHandler] handles HTTP requests for the home page. *)
Definition indexHandler (r : Request) (artistData : store) : result (list call) :=
  if negb (String.eqb (Method r) "GET") then
    Ok [HttpError "405 ! Method not allowed" 405]
  else if negb (String.eqb (Path r) "/") then
    Ok (render "404.html" TNil)
  else
    Ok (render "index.html" (TStore artistData)).

(** [singleArtistHandler] handles HTTP requests for individual artist
    details. *)
Definition singleArtistHandler (r : Request) (artistData : store) : result (list call) :=
  if negb (String.eqb (Method r) "GET") then
    Ok [HttpError "405 ! Method not allowed" 405]
  else
    match Atoi (Get (Query r) "id") with
    | None => Ok [HttpError "400 ! Invalid Artist ID" 400]
    | Some artistID =>
        if (artistID <? 1)%Z || (artistID >? Z.of_nat (length artistData))%Z then
          Ok [HttpError "400 ! Invalid Artist ID" 400]
        else
          artist ← index artistData (artistID - 1)%Z;
          mret (render "artist.html" (TRecord artist))
    end.

(** [aboutHandler] handles HTTP requests for the about page. *)
Definition aboutHandler (r : Request) (artistData : store) : result (list call) :=
  if negb (String.eqb (Method r) "GET") then
    Ok [HttpError "405 ! Method not allowed" 405]
  else
    Ok (render "about.html" TNil).

(** The body of [for _, artist := range artistData] in [searchHandler]. *)
Definition searchArtist (query : string) (results : list SearchResult.t)
    (artist : gmap string value) : result (list SearchResult.t) :=
  (* Search by artist name *)
  name ← assertString artist "Name";
  results ←
    (if Contains (ToLower name) query then
       v ← assertString artist "Name";
       id ← assertInt artist "Id";
       mret (results ++ [SearchResult.mk "artist" v id])
     else mret results);
  (* Search by members *)
  members ← assertStrings artist "Members";
  results ←
    forRange (fun results member =>
      if Contains (ToLower member) query then
        id ← assertInt artist "Id";
        mret (results ++ [SearchResult.mk "member" member id])
      else mret results) members results;
  (* Search by locations *)
  locs ← assertStrings artist "Locations";
  results ←
    forRange (fun results location =>
      if Contains (ToLower location) query then
        id ← assertInt artist "Id";
        mret (results ++ [SearchResult.mk "location" location id])
      else mret results) locs results;
  (* Search by first album date *)
  album ← assertString artist "FirstAlbum";
  results ←
    (if Contains (ToLower album) query then
       v ← assertString artist "FirstAlbum";
       id ← assertInt artist "Id";
       mret (results ++ [SearchResult.mk "first album" v id])
     else mret results);
  (* Search by creation date *)
  year ← assertInt artist "CreationDate";
  if Contains (Itoa year) query then
    year' ← assertInt artist "CreationDate";
    id ← assertInt artist "Id";
    mret (results ++ [SearchResult.mk "creation date" (Itoa year') id])
  else mret results.

(** [searchHandler] handles search requests; unlike its siblings it does
    not look at the method. *)
Definition searchHandler (r : Request) (artistData : store) : result (list call) :=
  let query := ToLower (Get (Query r) "q") in
  results ← forRange (searchArtist query) artistData [];
  mret [SetHeader "Content-Type" "application/json"; Encode results].

End Handlers.

(** ** The earlier revision of the handlers (main.go)

    [gatherData] is the same in both revisions; the handlers differ in
    their messages and in the answer to an unknown path, and the search
    and about routes do not exist yet. *)
Module MainGo.
Section Handlers.

Variable executeTemplate : string -> tdata -> option error.

Definition render (name : string) (data : tdata) : list call :=
  ExecuteTemplate name data ::
  match executeTemplate name data with
  | Some err => [HttpError ("Error: " +:+ err) 500]
  | None => []
  end.

Definition indexHandler (r : Request) (artistData : store) : result (list call) :=
  if negb (String.eqb (Method r) "GET") then
    Ok [HttpError "Method not allowed" 405]
  else if negb (String.eqb (Path r) "/") then
    Ok [HttpError "Page not found" 404]
  else
    Ok (render "index.html" (TStore artistData)).

Definition singleArtistHandler (r : Request) (artistData : store) : result (list call) :=
  if negb (String.eqb (Method r) "GET") then
    Ok [HttpError "Method not allowed" 405]
  else
    match Atoi (Get (Query r) "id") with
    | None => Ok [HttpError "Invalid Artist ID" 400]
    | Some artistID =>
        if (artistID <? 1)%Z || (artistID >? Z.of_nat (length artistData))%Z then
          Ok [HttpError "Invalid Artist ID" 400]
        else
          artist ← index artistData (artistID - 1)%Z;
          mret (render "artist.html" (TRecord artist))
    end.

End Handlers.
End MainGo.

(** ** The operations of the running program *)

(** The handlers [main] registers, and the call [init] makes. *)
Inductive operation : Type :=
| OpGather (remote : Remote) (sched : list goroutine)  (* gatherData() *)
| OpIndex (r : Request)                                (* "/" *)
| OpArtist (r : Request)                               (* "/Artist" *)
| OpAbout (r : Request)                                (* "/about" *)
| OpSearch (r : Request).                              (* "/search" *)

(** What an operation answers and the [artistData] it leaves. The handlers
    read the package-level slice and hold no assignment to it. *)
Definition perform (unicodeLower : string -> string)
    (executeTemplate : string -> tdata -> option error)
    (op : operation) (artistData : store) : result (list call + option error) * store :=
  match op with
  | OpGather remote sched =>
      let '(r, artistData') := gatherData remote sched artistData in
      (e ← r; mret (inr e), artistData')
  | OpIndex r =>
      (c ← indexHandler executeTemplate r artistData; mret (inl c), artistData)
  | OpArtist r =>
      (c ← singleArtistHandler executeTemplate r artistData; mret (inl c), artistData)
  | OpAbout r =>
      (c ← aboutHandler executeTemplate r artistData; mret (inl c), artistData)
  | OpSearch r =>
      (c ← searchHandler unicodeLower r artistData; mret (inl c), artistData)
  end.

(** ** The specification's reading of the operations *)

(** One element of the four decoded collections each, as the combine loop
    reads them at one position. *)
Record Joined : Type := mkJoined
  { jArtist : Artist.t;
    jLocations : Locations.entry;
    jDates : Dates.entry;
    jRelation : Relation.entry }.

Definition recordOf (j : Joined) : gmap string value :=
  compositeRecord (jArtist j) (jLocations j) (jDates j) (jRelation j).

(** The stores [gatherData] builds. *)
Definition storeOf (js : list Joined) : store := map recordOf js.

(** The number of fields of one record that a search tests. *)
Definition testedFields (j : Joined) : nat :=
  1 + length (Artist.Members (jArtist j)) + length (Locations.Locations (jLocations j)) + 1 + 1.

(** The one-record store of the example scenario. *)
Definition queen : Joined :=
  mkJoined
    (Artist.mk 1 "queen.jpeg" "Queen" ["Freddie Mercury"; "Brian May"]%string 1970
       "1973-07-13" "" "" "")
    (Locations.mkEntry 1 ["london"; "tokyo"]%string "")
    (Dates.mkEntry 1 [])
    (Relation.mkEntry 1 ∅).

(** The four collections read position by position, as far as all four
    reach. *)
Fixpoint zip4 (artists : list Artist.t) (locations : list Locations.entry)
    (dates : list Dates.entry) (relation : list Relation.entry) : list Joined :=
  match artists, locations, dates, relation with
  | a :: artists', l :: locations', d :: dates', r :: relation' =>
      mkJoined a l d r :: zip4 artists' locations' dates' relation'
  | _, _, _, _ => []
  end.

(** [Join]: the composite of every position, in the order of the artists. *)
Definition Join (artists : list Artist.t) (locations : Locations.t)
    (dates : Dates.t) (relation : Relation.t) : list Joined :=
  zip4 artists (Locations.Index locations) (Dates.Index dates) (Relation.Index relation).

(** The fixed priority order of the sources: artists, then locations, then
    dates, then relations. *)
Definition priorityOrder : list goroutine := [GArtists; GLocations; GDates; GRelation].

(** The error the priority policy reports: that of the first failing
    source in [priorityOrder]. *)
Definition priorityError (remote : Remote) (data : Data.t) : option error :=
  head (omap (failure remote data) priorityOrder).

(** The errors the failing fetches report, in launch order. *)
Definition reported (remote : Remote) (data : Data.t) : list error :=
  omap (failure remote data) goroutines.

Section Search.

Variable unicodeLower : string -> string.

(** Case-insensitive substring containment of an already lowered query. *)
Definition matches (query field : string) : bool :=
  Contains (ToLower unicodeLower field) query.

(** The hits of one record, in the field-check order: name, members,
    locations, first album, creation year. *)
Definition recordHits (query : string) (j : Joined) : list SearchResult.t :=
  let a := jArtist j in
  let id := Artist.ID a in
  (if matches query (Artist.Name a)
   then [SearchResult.mk "artist" (Artist.Name a) id] else [])
  ++ map (fun m => SearchResult.mk "member" m id)
       (filter (fun m => matches query m = true) (Artist.Members a))
  ++ map (fun l => SearchResult.mk "location" l id)
       (filter (fun l => matches query l = true) (Locations.Locations (jLocations j)))
  ++ (if matches query (Artist.FirstAlbum a)
      then [SearchResult.mk "first album" (Artist.FirstAlbum a) id] else [])
  ++ (if Contains (Itoa (Artist.CreationDate a)) query
      then [SearchResult.mk "creation date" (Itoa (Artist.CreationDate a)) id] else []).

(** [Search(query)]: the hits of every record, in store order. *)
Definition Search (query : string) (js : list Joined) : list SearchResult.t :=
  js ≫= recordHits (ToLower unicodeLower query).

End Search.

(** Byte-wise equality up to the case of the ASCII letters. *)
Fixpoint equalFoldASCII (q1 q2 : string) : bool :=
  match q1, q2 with
  | EmptyString, EmptyString => true
  | String c1 q1', String c2 q2' =>
      Ascii.eqb (lowerByte c1) (lowerByte c2) && equalFoldASCII q1' q2'
  | _, _ => false
  end.

(** Two queries differ only in letter case: ASCII strings that agree byte
    by byte up to the case of their letters or, with letters beyond ASCII,
    strings that Go's lowering makes equal. *)
Definition differOnlyInCase (unicodeLower : string -> string) (q1 q2 : string) : Prop :=
  (isASCII q1 = true /\ equalFoldASCII q1 q2 = true) \/
  ToLower unicodeLower q1 = ToLower unicodeLower q2.

(** ** Startup *)

(** How [init] ends. *)
Inductive startup : Type :=
| Fatal (msg : string)          (* log.Fatalf: the message is logged, the process exits *)
| Crashed (p : panic)           (* a panic nothing recovers *)
| Serving (artistData : store). (* init returns; main registers the handlers and listens *)

(** [init] is called before [main]: it fetches all data into the still
    empty [artistData] and parses the templates. [parseGlob] is what
    [ParseGlob("templates/*.html")] returns for the files on disk. *)
Definition init (remote : Remote) (sched : list goroutine) (parseGlob : option error)
    : startup :=
  match gatherData remote sched [] with
  | (Ok (Some err), _) => Fatal ("Failed to gather data: " +:+ err)
  | (Panicked p, _) => Crashed p
  | (Ok None, artistData) =>
      match parseGlob with
      | Some err => Fatal ("Failed to parse the HTML templates: " +:+ err)
      | None => Serving artistData
      end
  end.

(** ** The append as the compiler emits it

    For [errs = append(errs, err)] on the captured variable the compiler
    appends in place: it loads the header of [errs]; if there is no room it
    grows (a fresh array, the old cells copied) and stores cap and ptr; it
    stores len; only then does it store the element into its cell. The
    slice-level steps above take the write of the slice as one; they are
    exact as long as no two goroutines are inside their appends together.
    The steps below split the write in two, the header and then the
    element, so that they also cover what two racing appends can leave
    behind. The three words of the header are loaded together and stored
    together, and a cell is stored whole: every run below is a run of the
    program, not every run of the program is below. Nothing is left out
    when a single goroutine appends, or when the appends follow one
    another: the words are then read and written by one goroutine at a
    time. *)
Module InPlace.

Inductive pc : Type :=
| Fetching                                      (* fetchData has not returned *)
| Loading (err : error)                         (* err != nil, errs not read yet *)
| Publishing (ptr len cap : nat) (err : error)  (* header read; header not stored yet *)
| Placing (ptr idx : nat) (err : error)         (* header stored; element not stored yet *)
| Done.                                         (* the deferred wg.Done() has run *)

(** The variables of [gatherData] shared with its goroutines, [errs] as
    its three words and the arrays they can point to. A cell holds an
    interface value: [None] is nil, what a fresh array is filled with.
    Address 0 is the nil pointer, an array of no cells. *)
Record State : Type := mkState
  { pcs : goroutine -> pc;
    ptr : nat;
    len : nat;
    cap : nat;
    heap : list (list (option error));
    artists : list Artist.t;
    locations : Locations.t;
    relation : Relation.t;
    dates : Dates.t }.

Definition setPc (g : goroutine) (p : pc) (st : State) : State :=
  mkState (fun g' => if decide (g' = g) then p else pcs st g')
    (ptr st) (len st) (cap st) (heap st)
    (artists st) (locations st) (relation st) (dates st).

Definition setHeader (p l c : nat) (st : State) : State :=
  mkState (pcs st) p l c (heap st) (artists st) (locations st) (relation st) (dates st).

Definition setHeap (h : list (list (option error))) (st : State) : State :=
  mkState (pcs st) (ptr st) (len st) (cap st) h
    (artists st) (locations st) (relation st) (dates st).

Definition setArtists (v : list Artist.t) (st : State) : State :=
  mkState (pcs st) (ptr st) (len st) (cap st) (heap st)
    v (locations st) (relation st) (dates st).

Definition setLocations (v : Locations.t) (st : State) : State :=
  mkState (pcs st) (ptr st) (len st) (cap st) (heap st)
    (artists st) v (relation st) (dates st).

Definition setRelation (v : Relation.t) (st : State) : State :=
  mkState (pcs st) (ptr st) (len st) (cap st) (heap st)
    (artists st) (locations st) v (dates st).

Definition setDates (v : Dates.t) (st : State) : State :=
  mkState (pcs st) (ptr st) (len st) (cap st) (heap st)
    (artists st) (locations st) (relation st) v.

(** The state at [wg.Add(4)]: [errs] is nil. *)
Definition spawn : State :=
  mkState (fun _ => Fetching) 0 0 0 [[]] [] (Locations.mk []) (Relation.mk []) (Dates.mk []).

(** The array at an address, and the cell [a[i]]. *)
Definition array (st : State) (a : nat) : list (option error) :=
  default [] (heap st !! a).

Definition cell (st : State) (a i : nat) : option error :=
  default None (array st a !! i).

(** The elements of [errs]: the first [len] cells of the array at [ptr]. *)
Definition errs (st : State) : list (option error) :=
  take (len st) (array st (ptr st)).

(** The capacity [growslice] picks for one more element: doubling, as it
    does for the few elements four appends can bring. *)
Definition growCap (c : nat) : nat := if decide (c = 0) then 1 else 2 * c.

(** [growslice]: a fresh array of the new capacity, the first [l] cells
    copied from the old one as they are at this moment, the rest nil. *)
Definition growslice (old : list (option error)) (l c : nat) : list (option error) :=
  take l old ++ replicate (growCap c - l) None.

(** [fetchData] of goroutine [g] returns, as in the slice-level steps. *)
Definition fetched (remote : Remote) (data : Data.t) (g : goroutine) (st : State) : State :=
  match g with
  | GArtists =>
      match getArtists remote (Data.Artists data) with
      | inl err => setPc g (Loading err) st
      | inr v => setPc g Done (setArtists v st)
      end
  | GLocations =>
      match getLocations remote (Data.Locations data) with
      | inl err => setPc g (Loading err) st
      | inr v => setPc g Done (setLocations v st)
      end
  | GRelation =>
      match getRelation remote (Data.Relation data) with
      | inl err => setPc g (Loading err) st
      | inr v => setPc g Done (setRelation v st)
      end
  | GDates =>
      match getDates remote (Data.Dates data) with
      | inl err => setPc g (Loading err) st
      | inr v => setPc g Done (setDates v st)
      end
  end.

(** One step of goroutine [g]. *)
Definition step (remote : Remote) (data : Data.t) (g : goroutine) (st : State) : State :=
  match pcs st g with
  | Fetching => fetched remote data g st
  | Loading err => setPc g (Publishing (ptr st) (len st) (cap st) err) st
  | Publishing p l c err =>
      if decide (l + 1 <= c) then
        (* room: only len is stored *)
        setPc g (Placing p l err) (setHeader (ptr st) (l + 1) (cap st) st)
      else
        (* no room: grow, then store cap, ptr and len *)
        let a := length (heap st) in
        setPc g (Placing a l err)
          (setHeader a (l + 1) (growCap c)
             (setHeap (heap st ++ [growslice (array st p) l c]) st))
  | Placing a i err =>
      setPc g Done (setHeap (alter (fun cells => <[i := Some err]> cells) a (heap st)) st)
  | Done => st
  end.

Definition run (remote : Remote) (data : Data.t) (sched : list goroutine) (st : State) : State :=
  foldl (fun st g => step remote data g st) st sched.

(** A goroutine run from its fetch to its end with no other step in
    between: four steps are the most it takes. *)
Definition alone (g : goroutine) : list goroutine := [g; g; g; g].

(** [wg.Wait()]: a schedule that stops early is completed in launch
    order. *)
Definition wait (remote : Remote) (data : Data.t) (st : State) : State :=
  run remote data (goroutines ≫= alone) st.

Definition fanOut (remote : Remote) (data : Data.t) (sched : list goroutine) : State :=
  wait remote data (run remote data sched spawn).

(** [gatherData] over these steps. [return errs[0]] returns the interface
    value in the first cell: an error, or nil if the cell holds none. *)
Definition gatherData (remote : Remote) (sched : list goroutine) (artistData : store)
    : result (option error) * store :=
  match getData remote apiURL with
  | inl err => (Ok (Some err), artistData)
  | inr data =>
      let st := fanOut remote data sched in
      if decide (0 < len st) then
        (Ok (cell st (ptr st) 0), artistData)
      else
        match combine (artists st) (locations st) (dates st) (relation st) artistData with
        | (Ok _, artistData') => (Ok None, artistData')
        | (Panicked p, artistData') => (Panicked p, artistData')
        end
  end.

(** [init] over these steps. *)
Definition init (remote : Remote) (sched : list goroutine) (parseGlob : option error)
    : startup :=
  match gatherData remote sched [] with
  | (Ok (Some err), _) => Fatal ("Failed to gather data: " +:+ err)
  | (Panicked p, _) => Crashed p
  | (Ok None, artistData) =>
      match parseGlob with
      | Some err => Fatal ("Failed to parse the HTML templates: " +:+ err)
      | None => Serving artistData
      end
  end.

(** The artists goroutine stores the header of its one-cell array; the
    locations goroutine reads that header, grows and copies the cell,
    still nil; then each stores its element, the artists goroutine into
    the array nobody reads any more. *)
Definition torn : list goroutine :=
  [GArtists; GArtists; GArtists; GLocations; GLocations; GLocations; GArtists; GLocations].

(** *** What the proofs track through these steps *)

Section Tracking.

Variables (remote : Remote) (data : Data.t).

(** Where goroutine [g] stands after its next step. *)
Definition next (g : goroutine) (st : State) : pc :=
match pcs st g with
| Fetching =>
    match failure remote data g with
    | Some err => Loading err
    | None => Done
    end
| Loading err => Publishing (ptr st) (len st) (cap st) err
| Publishing p l c err =>
    Placing (if decide (l + 1 <= c) then p else length (heap st)) l err
| Placing _ _ _ => Done
| Done => Done
end.

(** [errs] as it is declared: nil, no array allocated. *)
Definition untouched (st : State) : Prop :=
ptr st = 0 /\ len st = 0 /\ cap st = 0 /\ heap st = [[]].

(** [errs] is a slice: its array is allocated, of [cap] cells, [len]
  of them in use. *)
Definition wellFormed (st : State) : Prop :=
ptr st < length (heap st) /\ len st <= cap st /\ length (array st (ptr st)) = cap st.

(** With [g0] the only goroutine that appends, [e0] its error: the
  header and the arrays, by where [g0] stands. *)
Definition writer (g0 : goroutine) (e0 : error) (st : State) : Prop :=
match pcs st g0 with
| Fetching => untouched st
| Loading e => e = e0 /\ untouched st
| Publishing p l c e => e = e0 /\ p = 0 /\ l = 0 /\ c = 0 /\ untouched st
| Placing a i e =>
    e = e0 /\ a = 1 /\ i = 0 /\
    ptr st = 1 /\ len st = 1 /\ cap st = 1 /\ heap st = [[]; [None]]
| Done => ptr st = 1 /\ len st = 1 /\ cap st = 1 /\ heap st = [[]; [Some e0]]
end.

(** What holds in every reachable state. *)
Record inv (st : State) : Prop := mkInv
{ inv_quiet : forall g, failure remote data g = None ->
    pcs st g = Fetching \/ pcs st g = Done;
  inv_none : (forall g, failure remote data g = None) -> untouched st;
  inv_one : forall g0 e0, failure remote data g0 = Some e0 ->
    (forall g e, failure remote data g = Some e -> g = g0) -> writer g0 e0 st;
  inv_artists : forall v, pcs st GArtists = Done ->
    getArtists remote (Data.Artists data) = inr v -> artists st = v;
  inv_locations : forall v, pcs st GLocations = Done ->
    getLocations remote (Data.Locations data) = inr v -> locations st = v;
  inv_relation : forall v, pcs st GRelation = Done ->
    getRelation remote (Data.Relation data) = inr v -> relation st = v;
  inv_dates : forall v, pcs st GDates = Done ->
    getDates remote (Data.Dates data) = inr v -> dates st = v }.

End Tracking.

End InPlace.

(** [sub] occurs in [s] as a run of consecutive bytes. *)
Definition occurs (sub s : string) : Prop :=
  exists pre post, s = pre +:+ sub +:+ post.

(** ** What the proofs track through the fan-out *)

Section Invariants.

Variables (remote : Remote) (data : Data.t).

(** [e] is the error of one of the four fetches. *)
Definition failed (e : error) : Prop := exists g, failure remote data g = Some e.

(** Where goroutine [g] stands after its next step. *)
Definition next (g : goroutine) (st : Locals) : pc :=
match pcs st g with
| Fetching =>
    match failure remote data g with
    | Some err => Appending err
    | None => Done
    end
| Appending err => Storing (errs st) err
| Storing _ _ => Done
| Done => Done
end.

(** What holds of the shared variables in every reachable state. *)
Record inv (st : Locals) : Prop := mkInv
{ inv_appending : forall g e, pcs st g = Appending e -> failure remote data g = Some e;
  inv_storing : forall g seen e, pcs st g = Storing seen e ->
    failure remote data g = Some e /\ Forall failed seen;
  inv_errs : Forall failed (errs st);
  inv_done : forall g e, pcs st g = Done -> failure remote data g = Some e -> errs st <> [];
  inv_artists : forall v, pcs st GArtists = Done ->
    getArtists remote (Data.Artists data) = inr v -> artists st = v;
  inv_locations : forall v, pcs st GLocations = Done ->
    getLocations remote (Data.Locations data) = inr v -> locations st = v;
  inv_relation : forall v, pcs st GRelation = Done ->
    getRelation remote (Data.Relation data) = inr v -> relation st = v;
  inv_dates : forall v, pcs st GDates = Done ->
    getDates remote (Data.Dates data) = inr v -> dates st = v }.

(** With [g0] the only failing goroutine and [e0] its error: until [g0]
  has written, [errs] is empty; afterwards it is [[e0]]. *)
Definition single (g0 : goroutine) (e0 : error) (st : Locals) : Prop :=
(pcs st g0 <> Done -> errs st = []) /\
(forall seen e, pcs st g0 = Storing seen e -> seen = []) /\
(errs st = [] \/ errs st = [e0]).

End Invariants.

(** ** Example data *)

Definition exampleData : Data.t := Data.mk "/artists" "/locations" "/dates" "/relation".

Definition queenArtist : Artist.t := jArtist queen.
Definition queenLocations : Locations.entry := jLocations queen.
Definition queenDates : Dates.entry := jDates queen.
Definition queenRelation : Relation.entry := jRelation queen.

(** Every fetch succeeds; one artist, one entry in each index. *)
Definition remoteAligned : Remote :=
  {| getData := fun _ => inr exampleData;
     getArtists := fun _ => inr [queenArtist];
     getLocations := fun _ => inr (Locations.mk [queenLocations]);
     getRelation := fun _ => inr (Relation.mk [queenRelation]);
     getDates := fun _ => inr (Dates.mk [queenDates]) |}.

(** Every fetch succeeds; one artist, but two location entries. *)
Definition remoteSurplus : Remote :=
  {| getData := fun _ => inr exampleData;
     getArtists := fun _ => inr [queenArtist];
     getLocations := fun _ => inr (Locations.mk [queenLocations; queenLocations]);
     getRelation := fun _ => inr (Relation.mk [queenRelation]);
     getDates := fun _ => inr (Dates.mk [queenDates]) |}.

(** Every fetch succeeds; two artists, but one location entry. *)
Definition remoteShort : Remote :=
  {| getData := fun _ => inr exampleData;
     getArtists := fun _ => inr [queenArtist; queenArtist];
     getLocations := fun _ => inr (Locations.mk [queenLocations]);
     getRelation := fun _ => inr (Relation.mk [queenRelation; queenRelation]);
     getDates := fun _ => inr (Dates.mk [queenDates; queenDates]) |}.

(** The artists and the locations fetches fail. *)
Definition remoteTwoDown : Remote :=
  {| getData := fun _ => inr exampleData;
     getArtists := fun _ => inl "artists down"%string;
     getLocations := fun _ => inl "locations down"%string;
     getRelation := fun _ => inr (Relation.mk [queenRelation]);
     getDates := fun _ => inr (Dates.mk [queenDates]) |}.

(** Only the dates fetch fails. *)
Definition remoteDatesDown : Remote :=
  {| getData := fun _ => inr exampleData;
     getArtists := fun _ => inr [queenArtist];
     getLocations := fun _ => inr (Locations.mk [queenLocations]);
     getRelation := fun _ => inr (Relation.mk [queenRelation]);
     getDates := fun _ => inl "dates down"%string |}.

(** Both failing goroutines read [errs] before either writes it. *)
Definition overlapping : list goroutine := [GArtists; GLocations; GArtists; GLocations].

(** A request with one query parameter. *)
Definition request (method path key val : string) : Request :=
  mkRequest method path {[ key := [val] ]}.

(** A Unicode lowering and a template engine to run the handlers with. *)
Definition asciiOnly (s : string) : string := s.
Definition noTemplateError (name : string) (data : tdata) : option error := None.

(** A template engine that fails on every template. *)
Definition brokenTemplates (name : string) (data : tdata) : option error :=
  Some "template: pattern matches no files"%string.

(** * Properties *)

(** ** The combine loop *)

Section Join.

Variables (artists : list Artist.t) (locations : Locations.t)
  (dates : Dates.t) (relation : Relation.t).

Lemma index_lookup {A} (s : list A) (k : nat) (a : A) :
  s !! k = Some a -> index s (Z.of_nat k) = Ok a.
Proof.
  intros H. unfold index.
  destruct (Z.ltb_spec (Z.of_nat k) 0) as [Hneg|_]; [lia|].
  by rewrite Nat2Z.id, H.
Qed.

Lemma Join_lookup_Some (i : nat) (j : Joined) :
  Join artists locations dates relation !! i = Some j ->
  artists !! i = Some (jArtist j) /\
  Locations.Index locations !! i = Some (jLocations j) /\
  Dates.Index dates !! i = Some (jDates j) /\
  Relation.Index relation !! i = Some (jRelation j).
Proof.
  unfold Join.
  generalize (Locations.Index locations) (Dates.Index dates) (Relation.Index relation).
  revert i. induction artists as [|a l IH]; intros i [|b lb] [|c lc] [|d ld]; try done.
  destruct i as [|i]; simpl.
  - intros [= <-]. done.
  - apply IH.
Qed.

Lemma Join_lookup_intro (i : nat) a l d r :
  artists !! i = Some a ->
  Locations.Index locations !! i = Some l ->
  Dates.Index dates !! i = Some d ->
  Relation.Index relation !! i = Some r ->
  Join artists locations dates relation !! i = Some (mkJoined a l d r).
Proof.
  unfold Join.
  generalize (Locations.Index locations) (Dates.Index dates) (Relation.Index relation).
  revert i. induction artists as [|a' l' IH]; intros i [|b lb] [|c lc] [|e le]; try done;
    destruct i as [|i]; simpl; try done.
  - by intros [= ->] [= ->] [= ->] [= ->].
  - apply IH.
Qed.

Lemma Join_length :
  length artists <= length (Locations.Index locations) ->
  length artists <= length (Dates.Index dates) ->
  length artists <= length (Relation.Index relation) ->
  length (Join artists locations dates relation) = length artists.
Proof.
  unfold Join.
  generalize (Locations.Index locations) (Dates.Index dates) (Relation.Index relation).
  induction artists as [|a' l' IH]; intros [|b lb] [|c lc] [|e le]; simpl; try lia.
  intros. f_equal. apply IH; lia.
Qed.

(** The loop from position [k] on, as long as all four collections reach. *)
Lemma combineFrom_ok (todo k : nat) (artistData : store) :
  k + todo <= length (Join artists locations dates relation) ->
  combineFrom todo (Z.of_nat k) artists locations dates relation artistData
  = (Ok tt, artistData ++ storeOf (take todo (drop k (Join artists locations dates relation)))).
Proof.
  revert k artistData. induction todo as [|todo IH]; intros k artistData Hlen.
  - simpl. by rewrite app_nil_r.
  - destruct (lookup_lt_is_Some_2 (Join artists locations dates relation) k) as [j Hj]; [lia|].
    destruct (Join_lookup_Some k j Hj) as (Ha & Hl & Hd & Hr).
    simpl. rewrite (index_lookup _ _ _ Ha), (index_lookup _ _ _ Hl),
      (index_lookup _ _ _ Hd), (index_lookup _ _ _ Hr). simpl.
    replace (Z.of_nat k + 1)%Z with (Z.of_nat (S k)) by lia.
    rewrite IH by lia.
    rewrite (drop_S _ _ _ Hj). simpl.
    by rewrite <- app_assoc.
Qed.

Lemma combine_ok (artistData : store) :
  length artists <= length (Locations.Index locations) ->
  length artists <= length (Dates.Index dates) ->
  length artists <= length (Relation.Index relation) ->
  combine artists locations dates relation artistData
  = (Ok tt, artistData ++ storeOf (Join artists locations dates relation)).
Proof.
  intros Hl Hd Hr. pose proof (Join_length Hl Hd Hr) as Hlen.
  unfold combine. change 0%Z with (Z.of_nat 0).
  rewrite combineFrom_ok by (simpl; lia).
  by rewrite drop_0, <- Hlen, firstn_all.
Qed.

End Join.

(** The nine keys of a composite record and what they hold. *)
Lemma compositeRecord_fields (a : Artist.t) (l : Locations.entry)
    (d : Dates.entry) (r : Relation.entry) :
  let m := compositeRecord a l d r in
  m !! "Id"%string = Some (VInt (Artist.ID a)) /\
  m !! "Name"%string = Some (VString (Artist.Name a)) /\
  m !! "Image"%string = Some (VString (Artist.Image a)) /\
  m !! "Members"%string = Some (VStrings (Artist.Members a)) /\
  m !! "CreationDate"%string = Some (VInt (Artist.CreationDate a)) /\
  m !! "FirstAlbum"%string = Some (VString (Artist.FirstAlbum a)) /\
  m !! "Locations"%string = Some (VStrings (Locations.Locations l)) /\
  m !! "Dates"%string = Some (VStrings (Dates.Dates d)) /\
  m !! "Relation"%string = Some (VRelation (Relation.DatesLocations r)).
Proof. repeat split; reflexivity. Qed.

(** C1 (as amended): the combine loop has no length check and no error of
    its own. Whenever locations, dates and relations each hold at least as
    many entries as artists (equal lengths or longer), every index it uses
    is within bounds: the loop runs to its end without a panic and appends
    one record per artist, built from the entries at the artist's
    position; entries beyond [len(artists)] are ignored. *)
Theorem join_within_bounds (artists : list Artist.t) (locations : Locations.t)
    (dates : Dates.t) (relation : Relation.t) (artistData : store) :
  length artists <= length (Locations.Index locations) ->
  length artists <= length (Dates.Index dates) ->
  length artists <= length (Relation.Index relation) ->
  let new := storeOf (Join artists locations dates relation) in
  combine artists locations dates relation artistData = (Ok tt, artistData ++ new) /\
  length new = length artists.
Proof.
  intros Hl Hd Hr new. split.
  - by apply combine_ok.
  - subst new. unfold storeOf. rewrite length_map. by apply Join_length.
Qed.

(** C3: for four collections of equal length [N] the combine loop appends
    exactly [N] records; the record at position [i] carries the declared id
    of [artists[i]] (not [i]), its name, image, members, creation year and
    first album, and the locations, dates and relation of the entries at
    position [i]; the records follow the order of the artists. *)
Theorem join_positional (artists : list Artist.t) (locations : Locations.t)
    (dates : Dates.t) (relation : Relation.t) (artistData : store) (N : nat) :
  length artists = N ->
  length (Locations.Index locations) = N ->
  length (Dates.Index dates) = N ->
  length (Relation.Index relation) = N ->
  exists new : store,
    combine artists locations dates relation artistData = (Ok tt, artistData ++ new) /\
    length new = N /\
    forall (i : nat) (a : Artist.t), artists !! i = Some a ->
      exists l d r m,
        Locations.Index locations !! i = Some l /\
        Dates.Index dates !! i = Some d /\
        Relation.Index relation !! i = Some r /\
        new !! i = Some m /\
        m !! "Id"%string = Some (VInt (Artist.ID a)) /\
        m !! "Name"%string = Some (VString (Artist.Name a)) /\
        m !! "Image"%string = Some (VString (Artist.Image a)) /\
        m !! "Members"%string = Some (VStrings (Artist.Members a)) /\
        m !! "CreationDate"%string = Some (VInt (Artist.CreationDate a)) /\
        m !! "FirstAlbum"%string = Some (VString (Artist.FirstAlbum a)) /\
        m !! "Locations"%string = Some (VStrings (Locations.Locations l)) /\
        m !! "Dates"%string = Some (VStrings (Dates.Dates d)) /\
        m !! "Relation"%string = Some (VRelation (Relation.DatesLocations r)).
Proof.
  intros Ha Hl Hd Hr.
  exists (storeOf (Join artists locations dates relation)).
  split; [apply combine_ok; lia|].
  split; [unfold storeOf; rewrite length_map, Join_length; lia|].
  intros i a Hi.
  pose proof (lookup_lt_Some _ _ _ Hi) as Hlt.
  destruct (lookup_lt_is_Some_2 (Locations.Index locations) i) as [l Hli]; [lia|].
  destruct (lookup_lt_is_Some_2 (Dates.Index dates) i) as [d Hdi]; [lia|].
  destruct (lookup_lt_is_Some_2 (Relation.Index relation) i) as [r Hri]; [lia|].
  exists l, d, r, (compositeRecord a l d r).
  repeat (split; [done|]).
  split.
  - unfold storeOf. rewrite list_lookup_fmap.
    by rewrite (Join_lookup_intro _ _ _ _ i a l d r Hi Hli Hdi Hri).
  - apply compositeRecord_fields.
Qed.

(** ** The fan-out *)

Section FanOut.

Variables (remote : Remote) (data : Data.t).

(** Case analysis on the outcome of each fetch the goal looks at. *)
Ltac case_fetch :=
  repeat match goal with
    | |- context [match ?x with inl _ => _ | inr _ => _ end] => destruct x eqn:?
    end.

Lemma pcs_step (g g' : goroutine) (st : Locals) :
  pcs (step remote data g st) g' = if decide (g' = g) then next remote data g st else pcs st g'.
Proof.
  unfold step, next, fetched, failure.
  destruct (pcs st g) eqn:Hpc; simpl; try reflexivity.
  - destruct g; case_fetch; reflexivity.
  - case_decide; by subst.
Qed.

Lemma errs_step (g : goroutine) (st : Locals) :
  errs (step remote data g st)
  = match pcs st g with Storing seen err => seen ++ [err] | _ => errs st end.
Proof.
  unfold step, fetched.
  destruct (pcs st g); try reflexivity.
  destruct g; case_fetch; reflexivity.
Qed.

Lemma artists_step (g : goroutine) (st : Locals) :
  artists (step remote data g st)
  = match g, pcs st g, getArtists remote (Data.Artists data) with
    | GArtists, Fetching, inr v => v
    | _, _, _ => artists st
    end.
Proof.
  unfold step, fetched.
  destruct g; destruct (pcs st _) eqn:Hpc; case_fetch; rewrite ?Hpc; reflexivity.
Qed.

Lemma locations_step (g : goroutine) (st : Locals) :
  locations (step remote data g st)
  = match g, pcs st g, getLocations remote (Data.Locations data) with
    | GLocations, Fetching, inr v => v
    | _, _, _ => locations st
    end.
Proof.
  unfold step, fetched.
  destruct g; destruct (pcs st _) eqn:Hpc; case_fetch; rewrite ?Hpc; reflexivity.
Qed.

Lemma relation_step (g : goroutine) (st : Locals) :
  relation (step remote data g st)
  = match g, pcs st g, getRelation remote (Data.Relation data) with
    | GRelation, Fetching, inr v => v
    | _, _, _ => relation st
    end.
Proof.
  unfold step, fetched.
  destruct g; destruct (pcs st _) eqn:Hpc; case_fetch; rewrite ?Hpc; reflexivity.
Qed.

Lemma dates_step (g : goroutine) (st : Locals) :
  dates (step remote data g st)
  = match g, pcs st g, getDates remote (Data.Dates data) with
    | GDates, Fetching, inr v => v
    | _, _, _ => dates st
    end.
Proof.
  unfold step, fetched.
  destruct g; destruct (pcs st _) eqn:Hpc; case_fetch; rewrite ?Hpc; reflexivity.
Qed.

(** A goroutine's own variable holds what its fetch decoded once the
    goroutine is done; the steps of the others leave it alone. *)
Ltac own_target Hown Hsto :=
  let Hpc := fresh "Hpc" in
  let Hv := fresh "Hv" in
  let Hf := fresh "Hf" in
  case_decide;
  [ subst; unfold next, failure;
    match goal with |- context [pcs ?st ?g] => destruct (pcs st g) eqn:Hpc end;
    [ intros _ Hv; by rewrite Hv
    | done
    | intros _ Hv; destruct (Hsto _ _ _ Hpc) as [Hf _];
      unfold failure in Hf; by rewrite Hv in Hf
    | intros _; by apply Hown ]
  | match goal with |- context [match ?g with GArtists => _ | _ => _ end] =>
      destruct g; try done; apply Hown
    end ].

Lemma inv_spawn : inv remote data spawn.
Proof. split; simpl; try done. Qed.

Lemma inv_step (g : goroutine) (st : Locals) :
  inv remote data st -> inv remote data (step remote data g st).
Proof.
  intros [Happ Hsto Herrs Hdone Ha Hl Hr Hd].
  assert (Herrs' : Forall (failed remote data) (errs (step remote data g st))).
  { rewrite errs_step. destruct (pcs st g) eqn:Hpc; try done.
    destruct (Hsto _ _ _ Hpc) as [Hf Hseen].
    apply Forall_app. split; [done|]. apply Forall_singleton. by exists g. }
  split; try done.
  - intros g' e. rewrite pcs_step. case_decide as Hg; [subst g'|by apply Happ].
    unfold next.
    destruct (pcs st g) eqn:Hpc; [destruct (failure remote data g) eqn:Hf|..]; try done.
    by intros [= <-].
  - intros g' seen e. rewrite pcs_step. case_decide as Hg; [subst g'|by apply Hsto].
    unfold next.
    destruct (pcs st g) eqn:Hpc; [by destruct (failure remote data g)| |done|done].
    intros [= <- <-]. split; [by apply Happ|done].
  - intros g' e. rewrite pcs_step, errs_step. case_decide as Hg; [subst g'|].
    + unfold next. destruct (pcs st g) eqn:Hpc.
      * intros Hn Hf. by rewrite Hf in Hn.
      * done.
      * intros _ _. by destruct seen.
      * intros _. by apply Hdone.
    + intros Hpc' Hf. destruct (pcs st g) eqn:Hpc; try by apply (Hdone g' e).
      by destruct seen.
  - intros v. rewrite pcs_step, artists_step. own_target Ha Hsto.
  - intros v. rewrite pcs_step, locations_step. own_target Hl Hsto.
  - intros v. rewrite pcs_step, relation_step. own_target Hr Hsto.
  - intros v. rewrite pcs_step, dates_step. own_target Hd Hsto.
Qed.

Lemma inv_run (sched : list goroutine) (st : Locals) :
  inv remote data st -> inv remote data (run remote data sched st).
Proof.
  revert st. induction sched as [|g sched IH]; intros st Hst; [done|].
  apply IH. by apply inv_step.
Qed.

Lemma goroutines_complete (g : goroutine) : g ∈ goroutines.
Proof. destruct g; unfold goroutines; repeat first [by left | right]. Qed.

Lemma goroutines_NoDup : NoDup goroutines.
Proof. by apply (bool_decide_unpack _). Qed.

Lemma run_app (s1 s2 : list goroutine) (st : Locals) :
  run remote data (s1 ++ s2) st = run remote data s2 (run remote data s1 st).
Proof. unfold run. apply foldl_app. Qed.

Lemma run_cons (g : goroutine) (sched : list goroutine) (st : Locals) :
  run remote data (g :: sched) st = run remote data sched (step remote data g st).
Proof. reflexivity. Qed.

Lemma pcs_step_same (g : goroutine) (st : Locals) :
  pcs (step remote data g st) g = next remote data g st.
Proof. rewrite pcs_step. by rewrite decide_True. Qed.

Lemma pcs_step_other (g g' : goroutine) (st : Locals) :
  g' <> g -> pcs (step remote data g st) g' = pcs st g'.
Proof. intros Hg. rewrite pcs_step. by rewrite decide_False. Qed.

(** A goroutine that is done stays done, whoever steps. *)
Lemma done_step (g g' : goroutine) (st : Locals) :
  pcs st g = Done -> pcs (step remote data g' st) g = Done.
Proof.
  intros Hg. rewrite pcs_step. case_decide; [subst g'|done].
  unfold next. by rewrite Hg.
Qed.

Lemma done_run (g : goroutine) (sched : list goroutine) (st : Locals) :
  pcs st g = Done -> pcs (run remote data sched st) g = Done.
Proof.
  revert st. induction sched as [|g' sched IH]; intros st Hg; [done|].
  rewrite run_cons. apply IH. by apply done_step.
Qed.

(** Three steps of its own take a goroutine to its end from anywhere. *)
Lemma alone_done (g : goroutine) (st : Locals) :
  pcs (run remote data (alone g) st) g = Done.
Proof.
  unfold alone. rewrite !run_cons. simpl.
  repeat (rewrite pcs_step_same; unfold next).
  destruct (pcs st g); destruct (failure remote data g); done.
Qed.

(** The barrier: after [wg.Wait()] every goroutine is done. *)
Lemma wait_done (st : Locals) (g : goroutine) : pcs (wait remote data st) g = Done.
Proof.
  unfold wait.
  change (goroutines ≫= alone)
    with (alone GArtists ++ alone GLocations ++ alone GRelation ++ alone GDates).
  rewrite !run_app.
  destruct g; repeat first [apply alone_done | apply done_run].
Qed.

Lemma fanOut_done (sched : list goroutine) (g : goroutine) :
  pcs (fanOut remote data sched) g = Done.
Proof. apply wait_done. Qed.

Lemma fanOut_inv (sched : list goroutine) : inv remote data (fanOut remote data sched).
Proof. unfold fanOut, wait. apply inv_run, inv_run, inv_spawn. Qed.

Lemma failed_reported (e : error) : failed remote data e <-> e ∈ reported remote data.
Proof.
  unfold failed, reported. rewrite list_elem_of_omap. split.
  - intros [g Hg]. exists g. split; [|done]. apply goroutines_complete.
  - intros (g & _ & Hg). by exists g.
Qed.

(** Slice by slice, [errs] holds nothing but errors of failed fetches. *)
Lemma fanOut_errs_reported (sched : list goroutine) (e : error) :
  e ∈ errs (fanOut remote data sched) -> e ∈ reported remote data.
Proof.
  intros He. apply failed_reported.
  pose proof (inv_errs remote data _ (fanOut_inv sched)) as H.
  rewrite Forall_forall in H. by apply H.
Qed.

(** With no failing fetch nobody appends: [errs] stays nil. *)
Lemma fanOut_errs_clean (sched : list goroutine) :
  reported remote data = [] -> errs (fanOut remote data sched) = [].
Proof.
  intros Hrep.
  destruct (errs (fanOut remote data sched)) as [|e l] eqn:He; [done|].
  assert (e ∈ reported remote data) as Hin
    by (apply (fanOut_errs_reported sched); rewrite He; left).
  rewrite Hrep in Hin. by apply elem_of_nil in Hin.
Qed.

(** On full success each destination holds what its fetch decoded. *)
Lemma fanOut_success (sched : list goroutine) a l r d :
  getArtists remote (Data.Artists data) = inr a ->
  getLocations remote (Data.Locations data) = inr l ->
  getRelation remote (Data.Relation data) = inr r ->
  getDates remote (Data.Dates data) = inr d ->
  let st := fanOut remote data sched in
  errs st = [] /\ artists st = a /\ locations st = l /\ relation st = r /\ dates st = d.
Proof.
  intros Ha Hl Hr Hd st. pose proof (fanOut_inv sched) as Hinv.
  split; [|repeat split].
  - apply fanOut_errs_clean. unfold reported, failure. simpl.
    by rewrite Ha, Hl, Hr, Hd.
  - by apply (inv_artists remote data _ Hinv); [apply fanOut_done|].
  - by apply (inv_locations remote data _ Hinv); [apply fanOut_done|].
  - by apply (inv_relation remote data _ Hinv); [apply fanOut_done|].
  - by apply (inv_dates remote data _ Hinv); [apply fanOut_done|].
Qed.

(** *** One failing fetch: a single writer *)

Section OneFailure.

Variables (g0 : goroutine) (e0 : error).
Hypothesis Hfail : failure remote data g0 = Some e0.
Hypothesis Honly : forall g e, failure remote data g = Some e -> g = g0.

Lemma single_step (g : goroutine) (st : Locals) :
  inv remote data st -> single g0 e0 st -> single g0 e0 (step remote data g st).
Proof.
  intros Hinv (Hbefore & Hseen & Herrs).
  assert (Hsame : g <> g0 -> errs (step remote data g st) = errs st).
  { intros Hg. rewrite errs_step. destruct (pcs st g) eqn:Hpc; try done.
    destruct (inv_storing remote data _ Hinv _ _ _ Hpc) as [Hf _]. by apply Honly in Hf. }
  destruct (decide (g = g0)) as [->|Hg].
  - unfold single. rewrite pcs_step_same, errs_step. unfold next.
    destruct (pcs st g0) eqn:Hpc.
    + rewrite Hfail. assert (errs st = []) by (by apply Hbefore).
      repeat split; try done.
    + assert (errs st = []) by (by apply Hbefore).
      repeat split; try done. by intros seen e [= <- _].
    + destruct (inv_storing remote data _ Hinv _ _ _ Hpc) as [Hf _].
      rewrite Hfail in Hf. injection Hf as <-.
      rewrite (Hseen _ _ eq_refl). repeat split; try done. by right.
    + repeat split; try done.
  - unfold single. rewrite pcs_step_other by done. rewrite Hsame by done. done.
Qed.

Lemma single_run (sched : list goroutine) (st : Locals) :
  inv remote data st -> single g0 e0 st -> single g0 e0 (run remote data sched st).
Proof.
  revert st. induction sched as [|g sched IH]; intros st Hinv Hst; [done|].
  rewrite run_cons. apply IH; [by apply inv_step|by apply single_step].
Qed.

Lemma single_fanOut (sched : list goroutine) :
  errs (fanOut remote data sched) = [e0].
Proof.
  assert (single g0 e0 (fanOut remote data sched)) as (_ & _ & [Hnil|Hone]); [|exfalso|done].
  - unfold fanOut, wait. apply single_run; [apply inv_run, inv_spawn|].
    apply single_run; [apply inv_spawn|]. repeat split; try done. by left.
  - by eapply (inv_done remote data _ (fanOut_inv sched) g0 e0); [apply fanOut_done|..].
Qed.

End OneFailure.

Lemma reported_single (e : error) :
  reported remote data = [e] ->
  exists g0, failure remote data g0 = Some e /\
             forall g e', failure remote data g = Some e' -> g = g0.
Proof.
  unfold reported. generalize (failure remote data). intros f. simpl.
  destruct (f GArtists) eqn:Ha, (f GLocations) eqn:Hl,
    (f GRelation) eqn:Hr, (f GDates) eqn:Hd;
    intros H; simplify_eq/=;
    [exists GArtists|exists GLocations|exists GRelation|exists GDates];
    (split; [done|]); intros [] e'; congruence.
Qed.

(** With exactly one failing fetch [errs] ends as that one error. *)
Lemma fanOut_errs_single (sched : list goroutine) (e : error) :
  reported remote data = [e] -> errs (fanOut remote data sched) = [e].
Proof.
  intros Hrep. destruct (reported_single e Hrep) as (g0 & Hf & Honly).
  by apply (single_fanOut g0 e Hf Honly).
Qed.

(** *** Goroutines that complete one after another *)

Lemma step_done (g : goroutine) (st : Locals) :
  pcs st g = Done -> step remote data g st = st.
Proof. intros H. unfold step. by rewrite H. Qed.

Lemma run_all_done (sched : list goroutine) (st : Locals) :
  (forall g, pcs st g = Done) -> run remote data sched st = st.
Proof.
  intros Hdone. induction sched as [|g sched IH]; [done|].
  rewrite run_cons. by rewrite step_done.
Qed.

(** A goroutine that runs undisturbed appends its error, if it has one,
    behind what [errs] already holds. *)
Lemma run_alone (g : goroutine) (st : Locals) :
  pcs st g = Fetching ->
  let st' := run remote data (alone g) st in
  errs st' = errs st ++ option_list (failure remote data g) /\
  forall g', g' <> g -> pcs st' g' = pcs st g'.
Proof.
  intros Hpc st'. subst st'. unfold alone. rewrite !run_cons. simpl. split.
  - rewrite errs_step, pcs_step_same. unfold next at 1.
    rewrite pcs_step_same. unfold next at 1. rewrite Hpc.
    destruct (failure remote data g) eqn:Hf; simpl.
    + rewrite errs_step, Hpc. done.
    + rewrite errs_step. rewrite pcs_step_same. unfold next. rewrite Hpc, Hf.
      rewrite errs_step, Hpc. by rewrite app_nil_r.
  - intros g' Hg. by rewrite !pcs_step_other.
Qed.

Lemma run_sequential (order : list goroutine) (st : Locals) :
  NoDup order ->
  (forall g, g ∈ order -> pcs st g = Fetching) ->
  let st' := run remote data (order ≫= alone) st in
  errs st' = errs st ++ omap (failure remote data) order /\
  forall g, g ∈ order -> pcs st' g = Done.
Proof.
  revert st. induction order as [|g order IH]; intros st Hnd Hfetch.
  - simpl. split; [by rewrite app_nil_r|]. by intros g Hg%elem_of_nil.
  - apply NoDup_cons in Hnd as [Hnotin Hnd].
    change ((g :: order) ≫= alone) with (alone g ++ (order ≫= alone)).
    cbv zeta. rewrite run_app.
    destruct (run_alone g st) as [Herrs Hpcs]; [apply Hfetch; left|].
    assert (Hrest : forall g', g' ∈ order ->
              pcs (run remote data (alone g) st) g' = Fetching).
    { intros g' Hg'. rewrite Hpcs by (by intros ->). apply Hfetch. by right. }
    pose proof (IH (run remote data (alone g) st) Hnd Hrest) as [Herrs' Hdone].
    split.
    + rewrite Herrs', Herrs, <- app_assoc. f_equal.
      change (omap (failure remote data) (g :: order))
        with (match failure remote data g with
              | Some y => y :: omap (failure remote data) order
              | None => omap (failure remote data) order
              end).
      by destruct (failure remote data g).
    + intros g' [->|Hg']%elem_of_cons; [|by apply Hdone].
      apply done_run, alone_done.
Qed.

(** Run one after another in the order [order], the goroutines leave in
    [errs] the errors of the failing fetches in that order. *)
Lemma fanOut_sequential (order : list goroutine) :
  order ≡ₚ goroutines ->
  errs (fanOut remote data (order ≫= alone)) = omap (failure remote data) order.
Proof.
  intros Hperm. unfold fanOut.
  destruct (run_sequential order spawn) as [Herrs Hdone]; [|done|].
  { rewrite Hperm. apply goroutines_NoDup. }
  unfold wait. rewrite run_all_done; [done|].
  intros g. apply Hdone. rewrite Hperm. apply goroutines_complete.
Qed.

End FanOut.

(** ** gatherData *)

(** The loop only ever extends [artistData]. *)
Lemma combineFrom_prefix (todo : nat) (x : Z) artists locations dates relation
    (artistData : store) :
  artistData `prefix_of`
    snd (combineFrom todo x artists locations dates relation artistData).
Proof.
  revert x artistData. induction todo as [|todo IH]; intros x artistData; simpl; [done|].
  destruct (index artists x) as [a|]; simpl; [|done].
  destruct (index (Locations.Index locations) x) as [l|]; simpl; [|done].
  destruct (index (Dates.Index dates) x) as [d|]; simpl; [|done].
  destruct (index (Relation.Index relation) x) as [r|]; simpl; [|done].
  etrans; [|apply IH]. by apply prefix_app_r.
Qed.

Lemma gatherData_prefix (remote : Remote) (sched : list goroutine) (artistData : store) :
  artistData `prefix_of` snd (gatherData remote sched artistData).
Proof.
  unfold gatherData. destruct (getData remote apiURL) as [e|data]; [done|].
  destruct (errs _); [|done].
  pose proof (combineFrom_prefix (length (artists (fanOut remote data sched))) 0
    (artists (fanOut remote data sched)) (locations (fanOut remote data sched))
    (dates (fanOut remote data sched)) (relation (fanOut remote data sched)) artistData) as H.
  unfold combine. by destruct (combineFrom _ _ _ _ _ _ _) as [[?|?] ?].
Qed.

(** When exactly one fetch has failed, [gatherData] returns its error and
    leaves [artistData] alone. *)
Lemma gatherData_single_failure (remote : Remote) (data : Data.t) (sched : list goroutine)
    (artistData : store) (e : error) :
  getData remote apiURL = inr data ->
  reported remote data = [e] ->
  gatherData remote sched artistData = (Ok (Some e), artistData).
Proof.
  intros Hroot Hrep. unfold gatherData. rewrite Hroot.
  by rewrite (fanOut_errs_single remote data sched e Hrep).
Qed.

(** On full success [gatherData] is the combine loop over the four decoded
    collections. *)
Lemma gatherData_success (remote : Remote) (data : Data.t) (sched : list goroutine)
    (artistData : store) a l r d :
  getData remote apiURL = inr data ->
  getArtists remote (Data.Artists data) = inr a ->
  getLocations remote (Data.Locations data) = inr l ->
  getRelation remote (Data.Relation data) = inr r ->
  getDates remote (Data.Dates data) = inr d ->
  gatherData remote sched artistData
  = match combine a l d r artistData with
    | (Ok _, artistData') => (Ok None, artistData')
    | (Panicked p, artistData') => (Panicked p, artistData')
    end.
Proof.
  intros Hroot Ha Hl Hr Hd. unfold gatherData. rewrite Hroot.
  destruct (fanOut_success remote data sched a l r d Ha Hl Hr Hd)
    as (-> & -> & -> & -> & ->).
  done.
Qed.

(** When no fetch fails, all four succeeded. *)
Lemma reported_nil (remote : Remote) (data : Data.t) :
  reported remote data = [] ->
  exists a l r d,
    getArtists remote (Data.Artists data) = inr a /\
    getLocations remote (Data.Locations data) = inr l /\
    getRelation remote (Data.Relation data) = inr r /\
    getDates remote (Data.Dates data) = inr d.
Proof.
  unfold reported, failure. simpl.
  destruct (getArtists _ _) as [?|a]; [done|].
  destruct (getLocations _ _) as [?|l]; [done|].
  destruct (getRelation _ _) as [?|r]; [done|].
  destruct (getDates _ _) as [?|d]; [done|].
  intros _. by exists a, l, r, d.
Qed.

(** ** The append in place, with at most one failing fetch

    A single goroutine appends: the header and the element are stored by
    the same goroutine, one after the other, and the two views of the
    append agree. *)

Section InPlaceFanOut.

Variables (remote : Remote) (data : Data.t).

Ltac case_fetch :=
  repeat match goal with
    | |- context [match ?x with inl _ => _ | inr _ => _ end] => destruct x eqn:?
    end.

Lemma inplace_pcs_step (g g' : goroutine) (st : InPlace.State) :
  InPlace.pcs (InPlace.step remote data g st) g'
  = if decide (g' = g) then InPlace.next remote data g st else InPlace.pcs st g'.
Proof.
  unfold InPlace.step, InPlace.next, InPlace.fetched, failure.
  destruct (InPlace.pcs st g) eqn:Hpc; simpl; try reflexivity.
  - destruct g; case_fetch; reflexivity.
  - case_decide; reflexivity.
  - case_decide; by subst.
Qed.

(** Only the two stores of an append change the header or an array. *)
Lemma inplace_header_step (g : goroutine) (st : InPlace.State) :
  match InPlace.pcs st g with
  | InPlace.Publishing _ _ _ _ | InPlace.Placing _ _ _ => True
  | _ =>
      InPlace.ptr (InPlace.step remote data g st) = InPlace.ptr st /\
      InPlace.len (InPlace.step remote data g st) = InPlace.len st /\
      InPlace.cap (InPlace.step remote data g st) = InPlace.cap st /\
      InPlace.heap (InPlace.step remote data g st) = InPlace.heap st
  end.
Proof.
  unfold InPlace.step, InPlace.fetched.
  destruct (InPlace.pcs st g); try done.
  destruct g; case_fetch; done.
Qed.

Lemma inplace_artists_step (g : goroutine) (st : InPlace.State) :
  InPlace.artists (InPlace.step remote data g st)
  = match g, InPlace.pcs st g, getArtists remote (Data.Artists data) with
    | GArtists, InPlace.Fetching, inr v => v
    | _, _, _ => InPlace.artists st
    end.
Proof.
  unfold InPlace.step, InPlace.fetched.
  destruct g; destruct (InPlace.pcs st _) eqn:Hpc; case_fetch; rewrite ?Hpc;
    try case_decide; reflexivity.
Qed.


Lemma inplace_locations_step (g : goroutine) (st : InPlace.State) :
  InPlace.locations (InPlace.step remote data g st)
  = match g, InPlace.pcs st g, getLocations remote (Data.Locations data) with
    | GLocations, InPlace.Fetching, inr v => v
    | _, _, _ => InPlace.locations st
    end.
Proof.
  unfold InPlace.step, InPlace.fetched.
  destruct g; destruct (InPlace.pcs st _) eqn:Hpc; case_fetch; rewrite ?Hpc;
    try case_decide; reflexivity.
Qed.

Lemma inplace_relation_step (g : goroutine) (st : InPlace.State) :
  InPlace.relation (InPlace.step remote data g st)
  = match g, InPlace.pcs st g, getRelation remote (Data.Relation data) with
    | GRelation, InPlace.Fetching, inr v => v
    | _, _, _ => InPlace.relation st
    end.
Proof.
  unfold InPlace.step, InPlace.fetched.
  destruct g; destruct (InPlace.pcs st _) eqn:Hpc; case_fetch; rewrite ?Hpc;
    try case_decide; reflexivity.
Qed.

Lemma inplace_dates_step (g : goroutine) (st : InPlace.State) :
  InPlace.dates (InPlace.step remote data g st)
  = match g, InPlace.pcs st g, getDates remote (Data.Dates data) with
    | GDates, InPlace.Fetching, inr v => v
    | _, _, _ => InPlace.dates st
    end.
Proof.
  unfold InPlace.step, InPlace.fetched.
  destruct g; destruct (InPlace.pcs st _) eqn:Hpc; case_fetch; rewrite ?Hpc;
    try case_decide; reflexivity.
Qed.

Lemma inplace_untouched_ext (st st' : InPlace.State) :
  InPlace.ptr st' = InPlace.ptr st -> InPlace.len st' = InPlace.len st ->
  InPlace.cap st' = InPlace.cap st -> InPlace.heap st' = InPlace.heap st ->
  InPlace.untouched st -> InPlace.untouched st'.
Proof. unfold InPlace.untouched. by intros -> -> -> ->. Qed.

Lemma inplace_writer_ext (g0 : goroutine) (e0 : error) (st st' : InPlace.State) :
  InPlace.pcs st' g0 = InPlace.pcs st g0 ->
  InPlace.ptr st' = InPlace.ptr st -> InPlace.len st' = InPlace.len st ->
  InPlace.cap st' = InPlace.cap st -> InPlace.heap st' = InPlace.heap st ->
  InPlace.writer g0 e0 st -> InPlace.writer g0 e0 st'.
Proof. unfold InPlace.writer, InPlace.untouched. by intros -> -> -> -> ->. Qed.

(** A step of a goroutine whose fetch succeeds leaves [errs] alone. *)
Lemma inplace_quiet_step (g : goroutine) (st : InPlace.State) :
  InPlace.pcs st g = InPlace.Fetching \/ InPlace.pcs st g = InPlace.Done ->
  InPlace.ptr (InPlace.step remote data g st) = InPlace.ptr st /\
  InPlace.len (InPlace.step remote data g st) = InPlace.len st /\
  InPlace.cap (InPlace.step remote data g st) = InPlace.cap st /\
  InPlace.heap (InPlace.step remote data g st) = InPlace.heap st.
Proof.
  intros Hpc. pose proof (inplace_header_step g st) as H.
  by destruct Hpc as [Hpc|Hpc]; rewrite Hpc in H.
Qed.

(** The writer's own steps. *)
Lemma inplace_writer_step (g0 : goroutine) (e0 : error) (st : InPlace.State) :
  failure remote data g0 = Some e0 ->
  InPlace.writer g0 e0 st -> InPlace.writer g0 e0 (InPlace.step remote data g0 st).
Proof.
  intros Hf. unfold InPlace.writer. rewrite inplace_pcs_step, decide_True by done.
  unfold InPlace.next.
  destruct (InPlace.pcs st g0) eqn:Hpc.
  - rewrite Hf. intros Hun. split; [done|].
    destruct (inplace_quiet_step g0 st) as (? & ? & ? & ?); [by left|].
    by apply (inplace_untouched_ext st).
  - intros [-> Hun]. pose proof (inplace_header_step g0 st) as H. rewrite Hpc in H.
    destruct H as (? & ? & ? & ?). pose proof Hun as (Hptr & Hlen & Hcap & _).
    rewrite Hptr, Hlen, Hcap. split; [done|]. do 3 (split; [done|]).
    by apply (inplace_untouched_ext st).
  - intros (-> & -> & -> & -> & _ & _ & _ & Hheap).
    unfold InPlace.step. rewrite Hpc. simpl. unfold InPlace.array. rewrite Hheap. done.
  - intros (-> & -> & -> & Hptr & Hlen & Hcap & Hheap).
    unfold InPlace.step. rewrite Hpc. simpl. rewrite Hheap. done.
  - unfold InPlace.step. by rewrite Hpc.
Qed.

Ltac own_target Hown Hbusy :=
  let Hpc := fresh "Hpc" in
  let Hv := fresh "Hv" in
  let He := fresh "He" in
  case_decide;
  [ subst; unfold InPlace.next, failure;
    match goal with |- context [InPlace.pcs ?st ?g] => destruct (InPlace.pcs st g) eqn:Hpc end;
    [ intros _ Hv; by rewrite Hv
    | done
    | done
    | intros _ Hv; destruct (Hbusy _ _ _ _ Hpc) as [? He];
      unfold failure in He; by rewrite Hv in He
    | intros _; by apply Hown ]
  | match goal with |- context [match ?g with GArtists => _ | _ => _ end] =>
      destruct g; try done; apply Hown
    end ].

Lemma inplace_inv_spawn : InPlace.inv remote data InPlace.spawn.
Proof.
  split; try done.
  intros g _. by left.
Qed.

Lemma inplace_inv_step (g : goroutine) (st : InPlace.State) :
  InPlace.inv remote data st -> InPlace.inv remote data (InPlace.step remote data g st).
Proof.
  intros [Hq Hnone Hone Ha Hl Hr Hd].
  assert (Hbusy : forall g' a i e, InPlace.pcs st g' = InPlace.Placing a i e ->
            exists e', failure remote data g' = Some e').
  { intros g' a i e Hpc. destruct (failure remote data g') as [e'|] eqn:Hf; [by exists e'|].
    destruct (Hq g' Hf) as [H|H]; by rewrite H in Hpc. }
  split.
  - intros g' Hf. rewrite inplace_pcs_step. case_decide as Hg; [subst g'|by apply Hq].
    unfold InPlace.next. destruct (Hq g Hf) as [-> | ->]; [rewrite Hf|]; by right.
  - intros Hall. destruct (inplace_quiet_step g st) as (? & ? & ? & ?); [by apply Hq|].
    apply (inplace_untouched_ext st); try done. by apply Hnone.
  - intros g0 e0 Hf Honly. specialize (Hone g0 e0 Hf Honly).
    destruct (decide (g = g0)) as [->|Hne]; [by apply inplace_writer_step|].
    destruct (inplace_quiet_step g st) as (? & ? & ? & ?).
    { destruct (failure remote data g) as [e|] eqn:Hg; [|by apply Hq].
      by apply Honly in Hg. }
    apply (inplace_writer_ext g0 e0 st); try done.
    rewrite inplace_pcs_step. by rewrite decide_False.
  - intros v. rewrite inplace_pcs_step, inplace_artists_step. own_target Ha Hbusy.
  - intros v. rewrite inplace_pcs_step, inplace_locations_step. own_target Hl Hbusy.
  - intros v. rewrite inplace_pcs_step, inplace_relation_step. own_target Hr Hbusy.
  - intros v. rewrite inplace_pcs_step, inplace_dates_step. own_target Hd Hbusy.
Qed.


Lemma inplace_run_cons (g : goroutine) (sched : list goroutine) (st : InPlace.State) :
  InPlace.run remote data (g :: sched) st
  = InPlace.run remote data sched (InPlace.step remote data g st).
Proof. reflexivity. Qed.

Lemma inplace_run_app (s1 s2 : list goroutine) (st : InPlace.State) :
  InPlace.run remote data (s1 ++ s2) st
  = InPlace.run remote data s2 (InPlace.run remote data s1 st).
Proof. unfold InPlace.run. apply foldl_app. Qed.

Lemma inplace_inv_run (sched : list goroutine) (st : InPlace.State) :
  InPlace.inv remote data st -> InPlace.inv remote data (InPlace.run remote data sched st).
Proof.
  revert st. induction sched as [|g sched IH]; intros st Hst; [done|].
  apply IH. by apply inplace_inv_step.
Qed.

Lemma inplace_pcs_step_same (g : goroutine) (st : InPlace.State) :
  InPlace.pcs (InPlace.step remote data g st) g = InPlace.next remote data g st.
Proof. rewrite inplace_pcs_step. by rewrite decide_True. Qed.

Lemma inplace_done_step (g g' : goroutine) (st : InPlace.State) :
  InPlace.pcs st g = InPlace.Done ->
  InPlace.pcs (InPlace.step remote data g' st) g = InPlace.Done.
Proof.
  intros Hg. rewrite inplace_pcs_step. case_decide; [subst g'|done].
  unfold InPlace.next. by rewrite Hg.
Qed.

Lemma inplace_done_run (g : goroutine) (sched : list goroutine) (st : InPlace.State) :
  InPlace.pcs st g = InPlace.Done ->
  InPlace.pcs (InPlace.run remote data sched st) g = InPlace.Done.
Proof.
  revert st. induction sched as [|g' sched IH]; intros st Hg; [done|].
  rewrite inplace_run_cons. apply IH. by apply inplace_done_step.
Qed.

(** Four steps of its own take a goroutine to its end from anywhere. *)
Lemma inplace_alone_done (g : goroutine) (st : InPlace.State) :
  InPlace.pcs (InPlace.run remote data (InPlace.alone g) st) g = InPlace.Done.
Proof.
  unfold InPlace.alone. rewrite !inplace_run_cons. simpl.
  repeat (rewrite inplace_pcs_step_same; unfold InPlace.next).
  destruct (InPlace.pcs st g); destruct (failure remote data g); done.
Qed.

Lemma inplace_fanOut_done (sched : list goroutine) (g : goroutine) :
  InPlace.pcs (InPlace.fanOut remote data sched) g = InPlace.Done.
Proof.
  unfold InPlace.fanOut, InPlace.wait.
  change (goroutines ≫= InPlace.alone)
    with (InPlace.alone GArtists ++ InPlace.alone GLocations
          ++ InPlace.alone GRelation ++ InPlace.alone GDates).
  rewrite !inplace_run_app.
  destruct g; repeat first [apply inplace_alone_done | apply inplace_done_run].
Qed.

Lemma inplace_fanOut_inv (sched : list goroutine) :
  InPlace.inv remote data (InPlace.fanOut remote data sched).
Proof.
  unfold InPlace.fanOut, InPlace.wait. apply inplace_inv_run, inplace_inv_run, inplace_inv_spawn.
Qed.

Lemma reported_nil_failure (g : goroutine) :
  reported remote data = [] -> failure remote data g = None.
Proof.
  unfold reported. generalize (failure remote data). intros f. simpl.
  destruct (f GArtists) eqn:Ha, (f GLocations) eqn:Hl,
    (f GRelation) eqn:Hr, (f GDates) eqn:Hd; try done.
  intros _. by destruct g.
Qed.

(** With no failing fetch [errs] is still nil. *)
Lemma inplace_clean (st : InPlace.State) :
  InPlace.inv remote data st -> reported remote data = [] -> InPlace.untouched st.
Proof.
  intros Hinv Hrep. apply (InPlace.inv_none remote data _ Hinv).
  intros g. by apply reported_nil_failure.
Qed.

(** With exactly one failing fetch, once every goroutine is done [errs]
    is the one-cell array with its error. *)
Lemma inplace_single (st : InPlace.State) (e : error) :
  InPlace.inv remote data st -> (forall g, InPlace.pcs st g = InPlace.Done) ->
  reported remote data = [e] ->
  InPlace.ptr st = 1 /\ InPlace.len st = 1 /\ InPlace.cap st = 1 /\
  InPlace.heap st = [[]; [Some e]].
Proof.
  intros Hinv Hdone Hrep. destruct (reported_single remote data e Hrep) as (g0 & Hf & Honly).
  pose proof (InPlace.inv_one remote data _ Hinv g0 e Hf Honly) as H.
  unfold InPlace.writer in H. by rewrite Hdone in H.
Qed.

(** With at most one failing fetch the elements of [errs], once every
    goroutine is done, are the errors reported. *)
Lemma inplace_errs_exact (st : InPlace.State) :
  InPlace.inv remote data st -> (forall g, InPlace.pcs st g = InPlace.Done) ->
  length (reported remote data) <= 1 ->
  InPlace.errs st = Some <$> reported remote data.
Proof.
  intros Hinv Hdone Hone. unfold InPlace.errs, InPlace.array.
  destruct (reported remote data) as [|e [|e' es]] eqn:Hrep; [| |simpl in Hone; lia].
  - destruct (inplace_clean st Hinv Hrep) as (-> & -> & _ & ->). done.
  - destruct (inplace_single st e Hinv Hdone Hrep) as (-> & -> & _ & ->). done.
Qed.

End InPlaceFanOut.


(** With at most one failing fetch the two views of the append agree:
    [gatherData] over the in-place steps returns what it returns over the
    slice-level steps, whatever the two schedules. *)
Lemma inplace_gatherData_agrees (remote : Remote) (s s' : list goroutine)
    (artistData : store) :
  (forall data, getData remote apiURL = inr data -> length (reported remote data) <= 1) ->
  InPlace.gatherData remote s artistData = gatherData remote s' artistData.
Proof.
  intros Hone.
  destruct (getData remote apiURL) as [e|data] eqn:Hroot;
    [unfold InPlace.gatherData, gatherData; by rewrite Hroot|].
  specialize (Hone data eq_refl).
  unfold InPlace.gatherData. rewrite Hroot. cbv zeta.
  pose proof (inplace_fanOut_inv remote data s) as Hinv.
  pose proof (inplace_fanOut_done remote data s) as Hdone.
  revert Hinv Hdone. generalize (InPlace.fanOut remote data s). intros st Hinv Hdone.
  destruct (reported remote data) as [|e [|e' es]] eqn:Hrep; [| |simpl in Hone; lia].
  - destruct (reported_nil remote data Hrep) as (a & l & r & d & Ha & Hl & Hr & Hd).
    rewrite (gatherData_success remote data s' artistData a l r d) by done.
    destruct (inplace_clean remote data st Hinv Hrep) as (_ & -> & _ & _).
    rewrite decide_False by lia.
    by rewrite (InPlace.inv_artists remote data _ Hinv a),
      (InPlace.inv_locations remote data _ Hinv l),
      (InPlace.inv_relation remote data _ Hinv r),
      (InPlace.inv_dates remote data _ Hinv d).
  - rewrite (gatherData_single_failure remote data s' artistData e Hroot Hrep).
    destruct (inplace_single remote data st e Hinv Hdone Hrep) as (Hptr & Hlen & _ & Hheap).
    rewrite Hlen, decide_True by lia.
    unfold InPlace.cell, InPlace.array. by rewrite Hptr, Hheap.
Qed.

(** *** Goroutines that complete one after another, in place *)

Section InPlaceSequential.

Variables (remote : Remote) (data : Data.t).

Lemma inplace_step_done (g : goroutine) (st : InPlace.State) :
  InPlace.pcs st g = InPlace.Done -> InPlace.step remote data g st = st.
Proof. intros H. unfold InPlace.step. by rewrite H. Qed.

Lemma inplace_pcs_step_other (g g' : goroutine) (st : InPlace.State) :
  g' <> g -> InPlace.pcs (InPlace.step remote data g st) g' = InPlace.pcs st g'.
Proof. intros Hg. rewrite inplace_pcs_step. by rewrite decide_False. Qed.

(** The store of the header. *)
Lemma inplace_publish (g : goroutine) (st : InPlace.State) p l c e :
  InPlace.pcs st g = InPlace.Publishing p l c e ->
  let st' := InPlace.step remote data g st in
  InPlace.len st' = l + 1 /\
  if decide (l + 1 <= c) then
    InPlace.pcs st' g = InPlace.Placing p l e /\
    InPlace.ptr st' = InPlace.ptr st /\ InPlace.cap st' = InPlace.cap st /\
    InPlace.heap st' = InPlace.heap st
  else
    InPlace.pcs st' g = InPlace.Placing (length (InPlace.heap st)) l e /\
    InPlace.ptr st' = length (InPlace.heap st) /\ InPlace.cap st' = InPlace.growCap c /\
    InPlace.heap st' = InPlace.heap st ++ [InPlace.growslice (InPlace.array st p) l c].
Proof.
  intros Hpc. cbv zeta. unfold InPlace.step. rewrite Hpc.
  case_decide; simpl; by rewrite decide_True.
Qed.

(** The store of the element. *)
Lemma inplace_place (g : goroutine) (st : InPlace.State) a i e :
  InPlace.pcs st g = InPlace.Placing a i e ->
  let st' := InPlace.step remote data g st in
  InPlace.pcs st' g = InPlace.Done /\
  InPlace.ptr st' = InPlace.ptr st /\ InPlace.len st' = InPlace.len st /\
  InPlace.cap st' = InPlace.cap st /\
  InPlace.heap st' = alter (fun cells => <[i := Some e]> cells) a (InPlace.heap st).
Proof.
  intros Hpc. cbv zeta. unfold InPlace.step. rewrite Hpc. simpl. by rewrite decide_True.
Qed.

Lemma inplace_errs_ext (st st' : InPlace.State) :
  InPlace.ptr st' = InPlace.ptr st -> InPlace.len st' = InPlace.len st ->
  InPlace.heap st' = InPlace.heap st -> InPlace.errs st' = InPlace.errs st.
Proof. unfold InPlace.errs, InPlace.array. by intros -> -> ->. Qed.

Lemma inplace_wellFormed_ext (st st' : InPlace.State) :
  InPlace.ptr st' = InPlace.ptr st -> InPlace.len st' = InPlace.len st ->
  InPlace.cap st' = InPlace.cap st -> InPlace.heap st' = InPlace.heap st ->
  InPlace.wellFormed st -> InPlace.wellFormed st'.
Proof. unfold InPlace.wellFormed, InPlace.array. by intros -> -> -> ->. Qed.

(** An append that nothing interrupts, as [append] is specified: the
    elements so far, then the new one. *)
Lemma inplace_append (st2 st3 st4 : InPlace.State) (g : goroutine) (e : error) :
  InPlace.wellFormed st2 ->
  InPlace.pcs st2 g
  = InPlace.Publishing (InPlace.ptr st2) (InPlace.len st2) (InPlace.cap st2) e ->
  st3 = InPlace.step remote data g st2 ->
  st4 = InPlace.step remote data g st3 ->
  InPlace.wellFormed st4 /\ InPlace.errs st4 = InPlace.errs st2 ++ [Some e].
Proof.
  intros (Hptr & Hlen & Harr) Hpc -> ->.
  pose proof (inplace_publish g st2 _ _ _ _ Hpc) as [Hlen3 H3]. cbv zeta in *.
  destruct (lookup_lt_is_Some_2 (InPlace.heap st2) (InPlace.ptr st2) Hptr) as [arr Hlook].
  assert (InPlace.array st2 (InPlace.ptr st2) = arr) as Harr2
    by (unfold InPlace.array; by rewrite Hlook).
  rewrite Harr2 in Harr.
  case_decide as Hroom.
  - destruct H3 as (Hpc3 & Hptr3 & Hcap3 & Hheap3).
    destruct (inplace_place g _ _ _ _ Hpc3) as (_ & Hptr4 & Hlen4 & Hcap4 & Hheap4).
    unfold InPlace.wellFormed, InPlace.errs, InPlace.array.
    rewrite Hptr4, Hlen4, Hcap4, Hheap4, Hptr3, Hlen3, Hcap3, Hheap3.
    rewrite length_alter, list_lookup_alter_eq, Hlook. simpl.
    rewrite length_insert.
    split; [repeat split; lia|].
    replace (InPlace.len st2 + 1) with (S (InPlace.len st2)) by lia.
    rewrite (take_S_r _ _ (Some e)) by (apply list_lookup_insert_eq; lia).
    by rewrite take_insert_ge by lia.
  - destruct H3 as (Hpc3 & Hptr3 & Hcap3 & Hheap3).
    destruct (inplace_place g _ _ _ _ Hpc3) as (_ & Hptr4 & Hlen4 & Hcap4 & Hheap4).
    assert (InPlace.len st2 = InPlace.cap st2) as Hfull by lia.
    assert (InPlace.len st2 < InPlace.growCap (InPlace.cap st2)) as Hgrow
      by (unfold InPlace.growCap; case_decide; lia).
    unfold InPlace.wellFormed, InPlace.errs, InPlace.array.
    rewrite Hptr4, Hlen4, Hcap4, Hheap4, Hptr3, Hlen3, Hcap3, Hheap3, Harr2.
    rewrite length_alter, length_app, list_lookup_alter_eq.
    rewrite lookup_app_r by lia. rewrite Nat.sub_diag. simpl.
    unfold InPlace.growslice.
    rewrite length_insert, length_app, length_take, length_replicate.
    split; [repeat split; lia|].
    replace (InPlace.len st2 + 1) with (S (InPlace.len st2)) by lia.
    rewrite (take_S_r _ _ (Some e)).
    2:{ apply list_lookup_insert_eq. rewrite length_app, length_take, length_replicate. lia. }
    rewrite take_insert_ge by lia.
    rewrite take_app_le by (rewrite length_take; lia).
    by rewrite take_idemp, Hlook.
Qed.


(** A goroutine that runs undisturbed appends its error, if it has one,
    behind the elements [errs] already has. *)
Lemma inplace_run_alone (g : goroutine) (st : InPlace.State) :
  InPlace.pcs st g = InPlace.Fetching -> InPlace.wellFormed st ->
  InPlace.wellFormed (InPlace.run remote data (InPlace.alone g) st) /\
  InPlace.errs (InPlace.run remote data (InPlace.alone g) st)
  = InPlace.errs st ++ (Some <$> option_list (failure remote data g)) /\
  forall g', g' <> g ->
    InPlace.pcs (InPlace.run remote data (InPlace.alone g) st) g' = InPlace.pcs st g'.
Proof.
  intros Hpc Hwf. unfold InPlace.alone. rewrite !inplace_run_cons.
  change (InPlace.run remote data [] ?x) with x.
  assert (Hothers : forall g', g' <> g ->
    InPlace.pcs (InPlace.step remote data g (InPlace.step remote data g
      (InPlace.step remote data g (InPlace.step remote data g st)))) g' = InPlace.pcs st g')
    by (intros g' Hne; by rewrite !inplace_pcs_step_other).
  pose proof (inplace_pcs_step_same remote data g st) as Hpc1.
  unfold InPlace.next in Hpc1. rewrite Hpc in Hpc1.
  destruct (inplace_quiet_step remote data g st (or_introl Hpc)) as (Hp1 & Hl1 & Hc1 & Hh1).
  destruct (failure remote data g) as [e|] eqn:Hf.
  - pose proof (inplace_header_step remote data g (InPlace.step remote data g st)) as H2.
    rewrite Hpc1 in H2. destruct H2 as (Hp2 & Hl2 & Hc2 & Hh2).
    pose proof (inplace_pcs_step_same remote data g (InPlace.step remote data g st)) as Hpc2.
    unfold InPlace.next in Hpc2. rewrite Hpc1, <- Hp2, <- Hl2, <- Hc2 in Hpc2.
    assert (InPlace.wellFormed
              (InPlace.step remote data g (InPlace.step remote data g st))) as Hwf2
      by (apply (inplace_wellFormed_ext st); congruence).
    destruct (inplace_append _ _ _ g e Hwf2 Hpc2 eq_refl eq_refl) as [Hwf4 Herrs4].
    split; [done|]. split; [|done]. rewrite Herrs4. simpl. f_equal.
    apply inplace_errs_ext; congruence.
  - rewrite !(inplace_step_done g (InPlace.step remote data g st)) by done.
    split; [by apply (inplace_wellFormed_ext st)|].
    split; [|intros g' Hne; by rewrite inplace_pcs_step_other].
    simpl. rewrite app_nil_r. by apply inplace_errs_ext.
Qed.

Lemma inplace_run_sequential (order : list goroutine) (st : InPlace.State) :
  NoDup order ->
  (forall g, g ∈ order -> InPlace.pcs st g = InPlace.Fetching) ->
  InPlace.wellFormed st ->
  InPlace.errs (InPlace.run remote data (order ≫= InPlace.alone) st)
  = InPlace.errs st ++ (Some <$> omap (failure remote data) order) /\
  forall g, g ∈ order ->
    InPlace.pcs (InPlace.run remote data (order ≫= InPlace.alone) st) g = InPlace.Done.
Proof.
  revert st. induction order as [|g order IH]; intros st Hnd Hfetch Hwf.
  - simpl. split; [by rewrite app_nil_r|]. by intros g Hg%elem_of_nil.
  - apply NoDup_cons in Hnd as [Hnotin Hnd].
    change ((g :: order) ≫= InPlace.alone) with (InPlace.alone g ++ (order ≫= InPlace.alone)).
    rewrite inplace_run_app.
    destruct (inplace_run_alone g st) as (Hwf' & Herrs & Hpcs); [apply Hfetch; left|done|].
    assert (Hrest : forall g', g' ∈ order ->
              InPlace.pcs (InPlace.run remote data (InPlace.alone g) st) g' = InPlace.Fetching).
    { intros g' Hg'. rewrite Hpcs by (by intros ->). apply Hfetch. by right. }
    pose proof (IH (InPlace.run remote data (InPlace.alone g) st) Hnd Hrest Hwf')
      as [Herrs' Hdone].
    split.
    + rewrite Herrs', Herrs, <- app_assoc. f_equal.
      change (omap (failure remote data) (g :: order))
        with (match failure remote data g with
              | Some y => y :: omap (failure remote data) order
              | None => omap (failure remote data) order
              end).
      by destruct (failure remote data g).
    + intros g' [->|Hg']%elem_of_cons; [|by apply Hdone].
      apply inplace_done_run, inplace_alone_done.
Qed.

Lemma inplace_run_all_done (sched : list goroutine) (st : InPlace.State) :
  (forall g, InPlace.pcs st g = InPlace.Done) -> InPlace.run remote data sched st = st.
Proof.
  intros Hdone. induction sched as [|g sched IH]; [done|].
  rewrite inplace_run_cons. by rewrite inplace_step_done.
Qed.

(** Run one after another in the order [order], the goroutines leave in
    [errs] the errors of the failing fetches in that order, no element
    nil. *)
Lemma inplace_fanOut_sequential (order : list goroutine) :
  order ≡ₚ goroutines ->
  InPlace.errs (InPlace.fanOut remote data (order ≫= InPlace.alone))
  = Some <$> omap (failure remote data) order.
Proof.
  intros Hperm. unfold InPlace.fanOut.
  destruct (inplace_run_sequential order InPlace.spawn) as [Herrs Hdone].
  { rewrite Hperm. apply goroutines_NoDup. }
  { done. }
  { unfold InPlace.wellFormed. simpl. lia. }
  unfold InPlace.wait. rewrite inplace_run_all_done; [done|].
  intros g. apply Hdone. rewrite Hperm. apply goroutines_complete.
Qed.

Lemma inplace_errs_head (st : InPlace.State) (x : option error) (l : list (option error)) :
  InPlace.errs st = x :: l -> 0 < InPlace.len st /\ InPlace.cell st (InPlace.ptr st) 0 = x.
Proof.
  unfold InPlace.errs, InPlace.cell.
  destruct (InPlace.len st); [done|].
  destruct (InPlace.array st (InPlace.ptr st)); [done|].
  intros [= <- _]. split; [lia|done].
Qed.

End InPlaceSequential.

Lemma inplace_gatherData_sequential (remote : Remote) (data : Data.t)
    (order : list goroutine) (artistData : store) :
  getData remote apiURL = inr data ->
  reported remote data <> [] ->
  order ≡ₚ goroutines ->
  InPlace.gatherData remote (order ≫= InPlace.alone) artistData
  = (Ok (head (omap (failure remote data) order)), artistData).
Proof.
  intros Hroot Hrep Hperm. unfold InPlace.gatherData. rewrite Hroot. cbv zeta.
  pose proof (inplace_fanOut_sequential remote data order Hperm) as Herrs.
  revert Herrs. generalize (InPlace.fanOut remote data (order ≫= InPlace.alone)).
  intros st Herrs.
  assert (omap (failure remote data) order ≡ₚ reported remote data) as Hp
    by (unfold reported; by apply omap_Permutation).
  destruct (omap (failure remote data) order) as [|e l].
  { symmetry in Hp. by apply Permutation_nil_r in Hp. }
  destruct (inplace_errs_head st _ _ Herrs) as [Hlen ->].
  by rewrite decide_True.
Qed.

(** C2 (as amended): [gatherData] has no priority order over the sources;
    it returns [errs[0]]. When exactly one of the four fetches fails, every
    run returns the error of that fetch. When several fail, the error
    returned depends on the order in which the goroutines append: when they
    complete one after another it is the error of the first failing fetch
    in completion order, whichever source that is. Both hold with the
    append taken slice by slice and with the append taken in place. *)
Theorem first_error_by_completion (remote : Remote) (data : Data.t)
    (sched sched' : list goroutine) (artistData : store) :
  getData remote apiURL = inr data ->
  reported remote data <> [] ->
  (forall e, reported remote data = [e] ->
     gatherData remote sched artistData = (Ok (Some e), artistData) /\
     InPlace.gatherData remote sched' artistData = (Ok (Some e), artistData)) /\
  (forall order, order ≡ₚ goroutines ->
     gatherData remote (order ≫= alone) artistData
     = (Ok (head (omap (failure remote data) order)), artistData) /\
     InPlace.gatherData remote (order ≫= InPlace.alone) artistData
     = (Ok (head (omap (failure remote data) order)), artistData)).
Proof.
  intros Hroot Hrep. split.
  - intros e Hone.
    pose proof (gatherData_single_failure remote data sched artistData e Hroot Hone) as Hrun.
    split; [done|].
    rewrite (inplace_gatherData_agrees remote sched' sched artistData); [done|].
    intros data' Hroot'. rewrite Hroot in Hroot'. injection Hroot' as <-. by rewrite Hone.
  - intros order Hperm. split; [|by apply inplace_gatherData_sequential].
    unfold gatherData. rewrite Hroot.
    rewrite (fanOut_sequential remote data order Hperm).
    assert (omap (failure remote data) order ≡ₚ reported remote data) as Hp
      by (unfold reported; by apply omap_Permutation).
    destruct (omap (failure remote data) order) as [|e l]; [|done].
    symmetry in Hp. by apply Permutation_nil_r in Hp.
Qed.

(** C4 (the code departs from it): with the artists and the locations
    fetch both failing, there is a run of the four goroutines after which
    [errs] has two elements and the first is nil. [gatherData] takes the
    error branch, returns [errs[0]], that is nil, and [init], seeing no
    error, goes on to start the server on the empty store: a fetch failed
    and no error was returned. *)
Theorem racing_appends_return_nil :
  failure remoteTwoDown exampleData GArtists = Some "artists down"%string /\
  failure remoteTwoDown exampleData GLocations = Some "locations down"%string /\
  InPlace.len (InPlace.fanOut remoteTwoDown exampleData InPlace.torn) = 2 /\
  InPlace.gatherData remoteTwoDown InPlace.torn [] = (Ok None, []) /\
  InPlace.init remoteTwoDown InPlace.torn None = Serving [].
Proof. repeat split; vm_compute; reflexivity. Qed.

(** C10: [gatherData] appends to [artistData] and never clears it. Called
    on a store that already holds [M] records, a successful run over
    collections of length [N] leaves [M + N] records, the old ones first;
    and no operation of the program, [gatherData] or a handler, drops a
    record: the store it finds is a prefix of the store it leaves. *)
Theorem gatherData_appends (remote : Remote) (data : Data.t) (sched : list goroutine)
    (artistData : store) (a : list Artist.t) (l : Locations.t) (r : Relation.t)
    (d : Dates.t) (M N : nat) :
  getData remote apiURL = inr data ->
  getArtists remote (Data.Artists data) = inr a ->
  getLocations remote (Data.Locations data) = inr l ->
  getRelation remote (Data.Relation data) = inr r ->
  getDates remote (Data.Dates data) = inr d ->
  length a = N ->
  length (Locations.Index l) = N ->
  length (Relation.Index r) = N ->
  length (Dates.Index d) = N ->
  length artistData = M ->
  (exists new : store,
     gatherData remote sched artistData = (Ok None, artistData ++ new) /\
     length new = N /\
     length (snd (gatherData remote sched artistData)) = M + N) /\
  (forall unicodeLower executeTemplate op (artistData' : store),
     artistData' `prefix_of` snd (perform unicodeLower executeTemplate op artistData')).
Proof.
  intros Hroot Ha Hl Hr Hd HNa HNl HNr HNd HM. split.
  - rewrite (gatherData_success remote data sched artistData a l r d) by done.
    rewrite combine_ok by lia.
    assert (length (storeOf (Join a l d r)) = N) as Hlen
      by (unfold storeOf; rewrite length_map, Join_length; lia).
    eexists. split; [done|]. split; [done|].
    simpl. rewrite length_app. lia.
  - intros unicodeLower executeTemplate [remote' sched'|req|req|req|req] artistData';
      simpl; try done.
    pose proof (gatherData_prefix remote' sched' artistData') as H.
    by destruct (gatherData remote' sched' artistData').
Qed.

(** ** The handlers *)

Lemma Contains_empty (s : string) : Contains s EmptyString = true.
Proof. by destruct s. Qed.

Section SearchProperties.

Variable unicodeLower : string -> string.

Lemma ToLower_empty : ToLower unicodeLower EmptyString = EmptyString.
Proof. reflexivity. Qed.

(** The type assertions of [searchHandler] hold on the records
    [gatherData] builds. *)
Lemma assert_Name (j : Joined) :
  assertString (recordOf j) "Name" = Ok (Artist.Name (jArtist j)).
Proof. reflexivity. Qed.

Lemma assert_FirstAlbum (j : Joined) :
  assertString (recordOf j) "FirstAlbum" = Ok (Artist.FirstAlbum (jArtist j)).
Proof. reflexivity. Qed.

Lemma assert_Id (j : Joined) : assertInt (recordOf j) "Id" = Ok (Artist.ID (jArtist j)).
Proof. reflexivity. Qed.

Lemma assert_CreationDate (j : Joined) :
  assertInt (recordOf j) "CreationDate" = Ok (Artist.CreationDate (jArtist j)).
Proof. reflexivity. Qed.

Lemma assert_Members (j : Joined) :
  assertStrings (recordOf j) "Members" = Ok (Artist.Members (jArtist j)).
Proof. reflexivity. Qed.

Lemma assert_Locations (j : Joined) :
  assertStrings (recordOf j) "Locations" = Ok (Locations.Locations (jLocations j)).
Proof. reflexivity. Qed.

(** A loop that appends one hit per matching element appends the hits of
    the matching elements, in order. *)
Lemma forRange_hits (body : list SearchResult.t -> string -> result (list SearchResult.t))
    (P : string -> bool) (hit : string -> SearchResult.t) (l : list string)
    (results : list SearchResult.t) :
  (forall results x, body results x = Ok (if P x then results ++ [hit x] else results)) ->
  forRange body l results
  = Ok (results ++ map hit (filter (fun x => P x = true) l)).
Proof.
  intros Hbody. revert results. induction l as [|x l IH]; intros results; simpl.
  - by rewrite app_nil_r.
  - rewrite Hbody, filter_cons. simpl. rewrite IH. case_decide as HP.
    + rewrite HP. simpl. by rewrite <- app_assoc.
    + by destruct (P x).
Qed.

Lemma searchArtist_hits (query : string) (results : list SearchResult.t) (j : Joined) :
  searchArtist unicodeLower query results (recordOf j)
  = Ok (results ++ recordHits unicodeLower query j).
Proof.
  unfold searchArtist, recordHits, matches.
  rewrite !assert_Name, !assert_FirstAlbum, !assert_CreationDate,
    assert_Members, assert_Locations.
  rewrite !assert_Id. set (id := Artist.ID (jArtist j)).
  cbn [mbind result_bind mret result_ret].
  destruct (Contains (ToLower unicodeLower (Artist.Name (jArtist j))) query);
    cbn [mbind result_bind mret result_ret];
    (rewrite (forRange_hits _ (fun m => Contains (ToLower unicodeLower m) query)
                (fun m => SearchResult.mk "member" m id));
       [|by intros res x; destruct (Contains _ _)]);
    cbn [mbind result_bind mret result_ret];
    (rewrite (forRange_hits _ (fun l => Contains (ToLower unicodeLower l) query)
                (fun l => SearchResult.mk "location" l id));
       [|by intros res x; destruct (Contains _ _)]);
    cbn [mbind result_bind mret result_ret];
    destruct (Contains (ToLower unicodeLower (Artist.FirstAlbum (jArtist j))) query),
      (Contains (Itoa (Artist.CreationDate (jArtist j))) query);
    cbn [mbind result_bind mret result_ret];
    by rewrite <- ?app_assoc, ?app_nil_r.
Qed.

Lemma forRange_search (query : string) (js : list Joined)
    (results : list SearchResult.t) :
  forRange (searchArtist unicodeLower query) (storeOf js) results
  = Ok (results ++ (js ≫= recordHits unicodeLower query)).
Proof.
  revert results. induction js as [|j js IH]; intros results; simpl.
  - by rewrite app_nil_r.
  - rewrite searchArtist_hits. simpl. rewrite IH. by rewrite <- app_assoc.
Qed.

Lemma searchHandler_Search (r : Request) (js : list Joined) :
  searchHandler unicodeLower r (storeOf js)
  = Ok [SetHeader "Content-Type" "application/json";
        Encode (Search unicodeLower (Get (Query r) "q") js)].
Proof. unfold searchHandler, Search. by rewrite forRange_search. Qed.

(** Under the empty query every tested field of a record is a hit. *)
Lemma recordHits_empty (j : Joined) :
  length (recordHits unicodeLower EmptyString j) = testedFields j.
Proof.
  unfold recordHits, testedFields, matches. rewrite !Contains_empty.
  assert (Hall : forall l : list string,
    filter (fun m => Contains (ToLower unicodeLower m) EmptyString = true) l = l).
  { intros l. induction l as [|x l IH]; [done|].
    rewrite filter_cons, decide_True by apply Contains_empty. by rewrite IH. }
  rewrite !Hall, !length_app, !length_map. simpl. lia.
Qed.

End SearchProperties.

Lemma lowerByte_ascii (c : ascii) :
  (byteVal c <? 128)%Z = (byteVal (lowerByte c) <? 128)%Z.
Proof. by destruct c as [[] [] [] [] [] [] [] []]. Qed.

Lemma equalFoldASCII_lower (q1 q2 : string) :
  isASCII q1 = true -> equalFoldASCII q1 q2 = true ->
  isASCII q2 = true /\ mapBytes lowerByte q1 = mapBytes lowerByte q2.
Proof.
  revert q2. induction q1 as [|c1 q1 IH]; intros [|c2 q2]; simpl; try done.
  intros [Hc Hq]%andb_true_iff [Heq Hfold]%andb_true_iff.
  apply Ascii.eqb_eq in Heq. destruct (IH q2 Hq Hfold) as [Hq2 Hmap].
  split.
  - by rewrite lowerByte_ascii, <- Heq, <- lowerByte_ascii, Hc, Hq2.
  - by rewrite Heq, Hmap.
Qed.

(** Queries that differ only in letter case are lowered to the same string. *)
Lemma differOnlyInCase_ToLower (unicodeLower : string -> string) (q1 q2 : string) :
  differOnlyInCase unicodeLower q1 q2 ->
  ToLower unicodeLower q1 = ToLower unicodeLower q2.
Proof.
  intros [[Hascii Hfold]|H]; [|done].
  destruct (equalFoldASCII_lower q1 q2 Hascii Hfold) as [Hascii2 Hmap].
  unfold ToLower. by rewrite Hascii, Hascii2.
Qed.

(** [strconv.Atoi] reads back what [strconv.Itoa] prints: every [int] is
    the id of some request. *)
Lemma parseDigits_acc (d : Decimal.uint) (acc : positive) :
  parseDigits (NilEmpty.string_of_uint d) (Z.pos acc) = Some (Z.pos (Pos.of_uint_acc d acc)).
Proof.
  revert acc. induction d; intros acc; simpl; [done|..];
    match goal with
    | |- parseDigits _ ?z = _ =>
        match goal with
        | |- _ = Some (Z.pos (Pos.of_uint_acc _ ?p)) =>
            replace z with (Z.pos p) by (unfold byteVal; simpl; lia); apply IHd
        end
    end.
Qed.

Lemma parseDigits_uint (d : Decimal.uint) :
  parseDigits (NilEmpty.string_of_uint d) 0 = Some (Z.of_N (Pos.of_uint d)).
Proof.
  induction d; simpl; try done; apply (parseDigits_acc d).
Qed.

Lemma string_of_uint_digit (d : Decimal.uint) :
  d <> Decimal.Nil ->
  exists c rest, NilZero.string_of_uint d = String c rest /\
                 Ascii.eqb c "-" = false /\ Ascii.eqb c "+" = false.
Proof. destruct d; [done|..]; intros _; by eexists _, _. Qed.

Lemma parseDigits_pos (p : positive) :
  parseDigits (NilZero.string_of_uint (Pos.to_uint p)) 0 = Some (Z.pos p).
Proof.
  pose proof (Unsigned.to_uint_nonnil p) as Hnil.
  replace (NilZero.string_of_uint (Pos.to_uint p))
    with (NilEmpty.string_of_uint (Pos.to_uint p))
    by (by destruct (Pos.to_uint p)).
  by rewrite parseDigits_uint, Unsigned.of_to.
Qed.

Lemma inRange (v : Z) :
  (minInt <= v <= maxInt)%Z -> (minInt <=? v)%Z && (v <=? maxInt)%Z = true.
Proof. intros H. apply andb_true_intro. split; apply Z.leb_le; lia. Qed.

Lemma Atoi_minus (c : ascii) (rest : string) :
  Atoi (String "-" (String c rest))
  = match parseDigits (String c rest) 0 with
    | Some n => if (minInt <=? - n)%Z && (- n <=? maxInt)%Z then Some (- n)%Z else None
    | None => None
    end.
Proof. reflexivity. Qed.

Lemma Atoi_Itoa (i : Z) : (minInt <= i <= maxInt)%Z -> Atoi (Itoa i) = Some i.
Proof.
  intros Hrange. unfold Itoa.
  destruct i as [|p|p]; cbn [Z.to_int NilZero.string_of_int].
  - reflexivity.
  - destruct (string_of_uint_digit (Pos.to_uint p) (Unsigned.to_uint_nonnil p))
      as (c & rest & Hs & Hminus & Hplus).
    pose proof (parseDigits_pos p) as Hparse. rewrite Hs in *.
    unfold Atoi. rewrite Hminus, Hplus. simpl orb. cbv iota. rewrite Hparse.
    by rewrite (inRange _ Hrange).
  - destruct (string_of_uint_digit (Pos.to_uint p) (Unsigned.to_uint_nonnil p))
      as (c & rest & Hs & _ & _).
    pose proof (parseDigits_pos p) as Hparse. rewrite Hs in *.
    rewrite Atoi_minus, Hparse. change (- Z.pos p)%Z with (Z.neg p).
    by rewrite (inRange _ Hrange).
Qed.

Lemma Atoi_range (s : string) (i : Z) : Atoi s = Some i -> (minInt <= i <= maxInt)%Z.
Proof.
  unfold Atoi. destruct s as [|c rest]; [done|].
  destruct (if Ascii.eqb c "-" || Ascii.eqb c "+" then rest else String c rest); [done|].
  destruct (parseDigits _ _) as [n|]; [|done].
  set (v := if Ascii.eqb c "-" then (- n)%Z else n).
  destruct (Z.leb_spec minInt v); [|done].
  destruct (Z.leb_spec v maxInt); [|done].
  intros [= <-]. lia.
Qed.

Lemma index_in_range {A} (s : list A) (i : Z) :
  (0 <= i < Z.of_nat (length s))%Z ->
  exists a, s !! Z.to_nat i = Some a /\ index s i = Ok a.
Proof.
  intros Hi. destruct (lookup_lt_is_Some_2 s (Z.to_nat i)) as [a Ha]; [lia|].
  exists a. split; [done|]. unfold index.
  destruct (Z.ltb_spec i 0); [lia|]. by rewrite Ha.
Qed.

(** C5: for a store of [N] records and a request whose id parses to the
    integer [id], [singleArtistHandler] answers "Invalid Artist ID" exactly
    when [id < 1] or [id > N] (so for 0, -1 and N+1), and for
    [1 <= id <= N] it hands the template exactly the record at position
    [id - 1]. Both revisions of the handler agree on this. *)
Theorem lookup_by_id (executeTemplate : string -> tdata -> option error)
    (r : Request) (artistData : store) (id : Z) :
  Method r = "GET"%string ->
  Atoi (Get (Query r) "id") = Some id ->
  let N := Z.of_nat (length artistData) in
  ((id < 1 \/ id > N)%Z <->
   singleArtistHandler executeTemplate r artistData
   = Ok [HttpError "400 ! Invalid Artist ID" 400]) /\
  ((id < 1 \/ id > N)%Z <->
   MainGo.singleArtistHandler executeTemplate r artistData
   = Ok [HttpError "Invalid Artist ID" 400]) /\
  ((1 <= id <= N)%Z ->
   exists artist,
     artistData !! Z.to_nat (id - 1) = Some artist /\
     singleArtistHandler executeTemplate r artistData
     = Ok (render executeTemplate "artist.html" (TRecord artist)) /\
     MainGo.singleArtistHandler executeTemplate r artistData
     = Ok (MainGo.render executeTemplate "artist.html" (TRecord artist))).
Proof.
  intros Hmethod Hid N.
  unfold singleArtistHandler, MainGo.singleArtistHandler.
  rewrite Hmethod, Hid. simpl negb. cbv iota.
  destruct (Z.ltb_spec id 1) as [Hlow|Hlow]; simpl orb.
  { repeat split; try done; try (intros; by left); intros; lia. }
  destruct (Z.gtb_spec id (Z.of_nat (length artistData))) as [Hhigh|Hhigh].
  { repeat split; try done; try (intros; by right); intros; lia. }
  destruct (index_in_range artistData (id - 1)) as (artist & Hlookup & Hindex); [lia|].
  rewrite Hindex. simpl.
  repeat split; try (intros; lia); try done.
  intros _. by exists artist.
Qed.

(** C6: under the empty query every tested field of every record is a
    hit: the number of hits is the sum over the records of one for the
    name, one per member, one per location, one for the first album and
    one for the creation year. *)
Theorem search_empty_query (unicodeLower : string -> string) (r : Request)
    (js : list Joined) :
  Get (Query r) "q" = EmptyString ->
  exists results,
    searchHandler unicodeLower r (storeOf js)
    = Ok [SetHeader "Content-Type" "application/json"; Encode results] /\
    length results = sum_list (testedFields <$> js).
Proof.
  intros Hq. eexists. split; [apply searchHandler_Search|].
  rewrite Hq. unfold Search. rewrite ToLower_empty.
  induction js as [|j js IH]; [done|].
  change ((j :: js) ≫= recordHits unicodeLower "")
    with (recordHits unicodeLower "" j ++ (js ≫= recordHits unicodeLower "")).
  rewrite length_app, recordHits_empty, IH. done.
Qed.

(** C7: the search is case-insensitive in its query: two requests whose
    queries differ only in letter case get identical answers, on every
    store. *)
Theorem search_case_insensitive (unicodeLower : string -> string) (r1 r2 : Request)
    (artistData : store) :
  differOnlyInCase unicodeLower (Get (Query r1) "q") (Get (Query r2) "q") ->
  searchHandler unicodeLower r1 artistData = searchHandler unicodeLower r2 artistData.
Proof.
  intros H. unfold searchHandler. by rewrite (differOnlyInCase_ToLower _ _ _ H).
Qed.

(** C8: the hits come in store order and, within a record, in the order
    name, members, locations, first album, creation year, one hit per
    matching field with its kind, the matched value and the record's id,
    nothing merged or reordered: the handler encodes exactly [Search]. On
    the one-record Queen store the query "may" gives the single hit
    (member, "Brian May", 1). *)
Theorem search_hits_in_order (unicodeLower : string -> string) (r : Request)
    (js : list Joined) :
  searchHandler unicodeLower r (storeOf js)
  = Ok [SetHeader "Content-Type" "application/json";
        Encode (Search unicodeLower (Get (Query r) "q") js)] /\
  Search unicodeLower "may" [queen] = [SearchResult.mk "member" "Brian May" 1] /\
  searchHandler unicodeLower (request "GET" "/search" "q" "may") (storeOf [queen])
  = Ok [SetHeader "Content-Type" "application/json";
        Encode [SearchResult.mk "member" "Brian May" 1]].
Proof.
  split; [apply searchHandler_Search|]. split; reflexivity.
Qed.

(** * The theorems at concrete inputs *)

(** One artist and two location entries: the loop stays within bounds. *)
Lemma join_within_bounds_witness :
  combine [queenArtist] (Locations.mk [queenLocations; queenLocations])
    (Dates.mk [queenDates]) (Relation.mk [queenRelation]) []
  = (Ok tt, [recordOf queen]).
Proof.
  destruct (join_within_bounds [queenArtist]
              (Locations.mk [queenLocations; queenLocations])
              (Dates.mk [queenDates]) (Relation.mk [queenRelation]) [])
    as [H _]; simpl; [lia..|].
  exact H.
Defined.

(** C1 fails as stated: the four collections have lengths 1, 2, 1, 1, yet
    [gatherData] returns nil and the store holds the one record. *)
Lemma join_misaligned_accepted :
  getArtists remoteSurplus "/artists" = inr [queenArtist] /\
  getLocations remoteSurplus "/locations"
  = inr (Locations.mk [queenLocations; queenLocations]) /\
  getDates remoteSurplus "/dates" = inr (Dates.mk [queenDates]) /\
  getRelation remoteSurplus "/relation" = inr (Relation.mk [queenRelation]) /\
  gatherData remoteSurplus [] [] = (Ok None, [recordOf queen]).
Proof. repeat split; reflexivity. Qed.

(** With fewer location entries than artists the loop indexes past the
    end: the run-time bounds check panics after one record is appended. *)
Lemma join_short_panics (sched : list goroutine) :
  gatherData remoteShort sched [] = (Panicked (IndexOutOfRange 1 1), [recordOf queen]).
Proof.
  by rewrite (gatherData_success remoteShort exampleData sched [] [queenArtist; queenArtist]
    (Locations.mk [queenLocations]) (Relation.mk [queenRelation; queenRelation])
    (Dates.mk [queenDates; queenDates])).
Qed.

Lemma join_positional_witness :
  exists new : store,
    combine [queenArtist] (Locations.mk [queenLocations]) (Dates.mk [queenDates])
      (Relation.mk [queenRelation]) [] = (Ok tt, new) /\
    length new = 1.
Proof.
  destruct (join_positional [queenArtist] (Locations.mk [queenLocations])
              (Dates.mk [queenDates]) (Relation.mk [queenRelation]) [] 1)
    as (new & Hrun & Hlen & _); try reflexivity.
  exists new. by split.
Defined.

(** C2 fails as stated: with the artists and the locations fetches both
    failing, the run in which the locations goroutine completes first
    returns the locations error, the run in which the artists goroutine
    completes first returns the artists error, and the priority order
    names the artists error for both. The appends do not overlap in
    either run, and the two views of the append give the same. *)
Lemma first_error_depends_on_order :
  gatherData remoteTwoDown (alone GLocations) [] = (Ok (Some "locations down"%string), []) /\
  gatherData remoteTwoDown (alone GArtists) [] = (Ok (Some "artists down"%string), []) /\
  InPlace.gatherData remoteTwoDown (InPlace.alone GLocations) []
  = (Ok (Some "locations down"%string), []) /\
  InPlace.gatherData remoteTwoDown (InPlace.alone GArtists) []
  = (Ok (Some "artists down"%string), []) /\
  priorityError remoteTwoDown exampleData = Some "artists down"%string.
Proof. repeat split; vm_compute; reflexivity. Qed.

Lemma first_error_by_completion_witness :
  gatherData remoteTwoDown ([GLocations; GArtists; GRelation; GDates] ≫= alone) []
  = (Ok (Some "locations down"%string), []) /\
  InPlace.gatherData remoteTwoDown
    ([GLocations; GArtists; GRelation; GDates] ≫= InPlace.alone) []
  = (Ok (Some "locations down"%string), []).
Proof.
  destruct (first_error_by_completion remoteTwoDown exampleData [] [] [])
    as (_ & H); [reflexivity|discriminate|].
  apply (H [GLocations; GArtists; GRelation; GDates]).
  unfold goroutines. apply perm_swap.
Defined.

(** C9 (the code departs from it): the appends to [errs] take no lock
    and use no channel, and errors are lost. With the artists and the
    locations fetch both failing: when both goroutines read the empty
    [errs] before either writes, they are inside their appends together,
    and of the two reported errors only one is in [errs] after the
    barrier; when the second reads the header the first has stored before
    the first has stored its element, [errs] ends with two elements, the
    first of them nil, and the artists error is in neither. *)
Lemma append_race_loses_error :
  racing (run remoteTwoDown exampleData overlapping spawn) = true /\
  reported remoteTwoDown exampleData = ["artists down"; "locations down"]%string /\
  errs (fanOut remoteTwoDown exampleData overlapping) = ["locations down"%string] /\
  InPlace.errs (InPlace.fanOut remoteTwoDown exampleData overlapping)
  = [Some "locations down"%string] /\
  InPlace.errs (InPlace.fanOut remoteTwoDown exampleData InPlace.torn)
  = [None; Some "locations down"%string].
Proof. repeat split; vm_compute; reflexivity. Qed.

Lemma gatherData_appends_witness :
  exists new : store,
    gatherData remoteAligned [] [recordOf queen] = (Ok None, [recordOf queen] ++ new) /\
    length new = 1 /\
    length (snd (gatherData remoteAligned [] [recordOf queen])) = 1 + 1.
Proof.
  apply (gatherData_appends remoteAligned exampleData [] [recordOf queen]
           [queenArtist] (Locations.mk [queenLocations]) (Relation.mk [queenRelation])
           (Dates.mk [queenDates]) 1 1); reflexivity.
Defined.

Lemma lookup_by_id_witness :
  exists artist,
    storeOf [queen] !! 0 = Some artist /\
    singleArtistHandler noTemplateError (request "GET" "/Artist" "id" "1") (storeOf [queen])
    = Ok (render noTemplateError "artist.html" (TRecord artist)).
Proof.
  destruct (lookup_by_id noTemplateError (request "GET" "/Artist" "id" "1")
              (storeOf [queen]) 1) as (_ & _ & H); [reflexivity..|].
  destruct H as (artist & Hlookup & Hhandler & _); [simpl; lia|].
  by exists artist.
Defined.

Lemma search_empty_query_witness :
  exists results,
    searchHandler asciiOnly (request "GET" "/search" "q" "") (storeOf [queen])
    = Ok [SetHeader "Content-Type" "application/json"; Encode results] /\
    length results = 7.
Proof.
  apply (search_empty_query asciiOnly (request "GET" "/search" "q" "") [queen]).
  reflexivity.
Defined.

Lemma search_case_insensitive_witness :
  searchHandler asciiOnly (request "GET" "/search" "q" "QUEEN") (storeOf [queen])
  = searchHandler asciiOnly (request "GET" "/search" "q" "queen") (storeOf [queen]).
Proof.
  apply search_case_insensitive. left. split; reflexivity.
Defined.

(** The ids 0, -1 and N+1 on the one-record store. *)
Lemma invalid_ids_rejected (id : string) :
  id ∈ ["0"; "-1"; "2"]%string ->
  singleArtistHandler noTemplateError (request "GET" "/Artist" "id" id) (storeOf [queen])
  = Ok [HttpError "400 ! Invalid Artist ID" 400].
Proof.
  rewrite !elem_of_cons, elem_of_nil. intros [->|[->|[->|[]]]]; reflexivity.
Qed.

(** * Further properties of the code *)

(** ** The combine loop on collections of any length *)

Lemma zip4_length_min (a : list Artist.t) (l : list Locations.entry)
    (d : list Dates.entry) (r : list Relation.entry) :
  length (zip4 a l d r)
  = Nat.min (length a) (Nat.min (length l) (Nat.min (length d) (length r))).
Proof.
  revert l d r. induction a as [|x a IH]; intros [|y l] [|z d] [|w r]; simpl; try lia.
  rewrite IH. lia.
Qed.

Lemma index_nat {A} (s : list A) (k : nat) :
  index s (Z.of_nat k)
  = match s !! k with
    | Some a => Ok a
    | None => Panicked (IndexOutOfRange (Z.of_nat k) (Z.of_nat (length s)))
    end.
Proof.
  unfold index. destruct (Z.ltb_spec (Z.of_nat k) 0); [lia|]. by rewrite Nat2Z.id.
Qed.

Lemma combineFrom_exact (artists : list Artist.t) (locations : Locations.t)
    (dates : Dates.t) (relation : Relation.t) (todo k : nat) (artistData : store) :
  let js := Join artists locations dates relation in
  let n := Z.of_nat (length js) in
  k <= length js ->
  k + todo <= length artists ->
  combineFrom todo (Z.of_nat k) artists locations dates relation artistData
  = (if decide (k + todo <= length js) then Ok tt else Panicked (IndexOutOfRange n n),
     artistData ++ storeOf (take todo (drop k js))).
Proof.
  intros js n. subst n. revert k artistData.
  induction todo as [|todo IH]; intros k artistData Hk Hlen.
  - simpl. rewrite decide_True by lia. by rewrite app_nil_r.
  - pose proof (zip4_length_min artists (Locations.Index locations) (Dates.Index dates)
      (Relation.Index relation)) as Hmin. fold (Join artists locations dates relation) in Hmin.
    fold js in Hmin.
    destruct (decide (k < length js)) as [Hlt|Hge].
    + destruct (lookup_lt_is_Some_2 js k) as [j Hj]; [done|].
      destruct (Join_lookup_Some _ _ _ _ k j Hj) as (Ha & Hl & Hd & Hr).
      simpl. rewrite !index_nat, Ha, Hl, Hd, Hr. simpl.
      replace (Z.of_nat k + 1)%Z with (Z.of_nat (S k)) by lia.
      rewrite IH by lia. rewrite (drop_S _ _ _ Hj).
      replace (k + S todo) with (S k + todo) by lia.
      simpl. by rewrite <- app_assoc.
    + assert (k = length js) as Hkn by lia.
      rewrite decide_False by lia. rewrite drop_ge by lia. rewrite take_nil.
      simpl. rewrite app_nil_r. rewrite !index_nat.
      destruct (lookup_lt_is_Some_2 artists k) as [a ->]; [lia|]. simpl.
      destruct (Locations.Index locations !! k) as [l|] eqn:Hl; simpl.
      2:{ apply lookup_ge_None in Hl. do 3 f_equal; lia. }
      destruct (Dates.Index dates !! k) as [d|] eqn:Hd; simpl.
      2:{ apply lookup_ge_None in Hd. do 3 f_equal; lia. }
      destruct (Relation.Index relation !! k) as [r|] eqn:Hr; simpl.
      2:{ apply lookup_ge_None in Hr. do 3 f_equal; lia. }
      apply lookup_lt_Some in Hl, Hd, Hr. lia.
Qed.

Lemma combine_any (artists : list Artist.t) (locations : Locations.t)
    (dates : Dates.t) (relation : Relation.t) (artistData : store) :
  let js := Join artists locations dates relation in
  let n := Z.of_nat (length js) in
  combine artists locations dates relation artistData
  = (if decide (length artists <= length js) then Ok tt
     else Panicked (IndexOutOfRange n n),
     artistData ++ storeOf js).
Proof.
  intros js n. unfold combine. change 0%Z with (Z.of_nat 0).
  pose proof (zip4_length_min artists (Locations.Index locations) (Dates.Index dates)
    (Relation.Index relation)) as Hmin. fold (Join artists locations dates relation) in Hmin.
  rewrite combineFrom_exact by (simpl; lia).
  fold js. rewrite drop_0, take_ge by (fold js in Hmin; lia). done.
Qed.

(** X1: the combine loop on four collections of any lengths. It appends
    one record for every position that all four collections reach, in
    order, and nothing else. It runs to its end exactly when no collection
    is shorter than artists; otherwise it panics at the first position [n]
    that one of them lacks, with "index out of range [n] with length n",
    the [n] records before it already appended. *)
Theorem combine_exact (artists : list Artist.t) (locations : Locations.t)
    (dates : Dates.t) (relation : Relation.t) (artistData : store) :
  let js := Join artists locations dates relation in
  let n := Z.of_nat (length js) in
  length js
  = Nat.min (length artists)
      (Nat.min (length (Locations.Index locations))
         (Nat.min (length (Dates.Index dates)) (length (Relation.Index relation)))) /\
  combine artists locations dates relation artistData
  = (if decide (length artists <= length js) then Ok tt
     else Panicked (IndexOutOfRange n n),
     artistData ++ storeOf js).
Proof. intros js n. split; [apply zip4_length_min|apply combine_any]. Qed.

(** ** gatherData: where its results come from *)

(** Whatever it returns, [gatherData] leaves [artistData] followed by
    joined records. *)
Lemma gatherData_store_shape (remote : Remote) (sched : list goroutine)
    (artistData artistData' : store) (res : result (option error)) :
  gatherData remote sched artistData = (res, artistData') ->
  exists js, artistData' = artistData ++ storeOf js.
Proof.
  unfold gatherData. destruct (getData remote apiURL) as [e|data].
  { intros [= _ <-]. exists []. by rewrite app_nil_r. }
  destruct (errs _).
  - rewrite combine_any. case_decide; intros [= _ <-]; by eexists.
  - intros [= _ <-]. exists []. by rewrite app_nil_r.
Qed.

Lemma gatherData_nil_inv (remote : Remote) (sched : list goroutine)
    (artistData artistData' : store) :
  (forall data, getData remote apiURL = inr data -> length (reported remote data) <= 1) ->
  gatherData remote sched artistData = (Ok None, artistData') ->
  exists data a l r d,
    getData remote apiURL = inr data /\
    getArtists remote (Data.Artists data) = inr a /\
    getLocations remote (Data.Locations data) = inr l /\
    getRelation remote (Data.Relation data) = inr r /\
    getDates remote (Data.Dates data) = inr d /\
    length a <= length (Locations.Index l) /\
    length a <= length (Dates.Index d) /\
    length a <= length (Relation.Index r) /\
    artistData' = artistData ++ storeOf (Join a l d r) /\
    length (Join a l d r) = length a.
Proof.
  intros Hone Hrun.
  destruct (getData remote apiURL) as [e|data] eqn:Hroot;
    [unfold gatherData in Hrun; by rewrite Hroot in Hrun|].
  specialize (Hone data eq_refl).
  destruct (reported remote data) as [|e [|e' es]] eqn:Hrep; [| |simpl in Hone; lia].
  - destruct (reported_nil remote data Hrep) as (a & l & r & d & Ha & Hl & Hr & Hd).
    rewrite (gatherData_success remote data sched artistData a l r d) in Hrun by done.
    rewrite combine_any in Hrun.
    pose proof (zip4_length_min a (Locations.Index l) (Dates.Index d) (Relation.Index r))
      as Hmin. fold (Join a l d r) in Hmin.
    destruct (decide (length a <= length (Join a l d r))); [|done].
    injection Hrun as <-.
    exists data, a, l, r, d. repeat split; try done; lia.
  - by rewrite (gatherData_single_failure remote data sched artistData e Hroot Hrep) in Hrun.
Qed.

(** X2: as long as no two of the four concurrent fetches fail together,
    an error that [gatherData] returns is never of its own making: it is
    the error of the root fetch, or the error of the one fetch that
    failed, and [artistData] is left as it was. *)
Theorem gatherData_error_origin (remote : Remote) (sched : list goroutine)
    (artistData artistData' : store) (e : error) :
  (forall data, getData remote apiURL = inr data -> length (reported remote data) <= 1) ->
  gatherData remote sched artistData = (Ok (Some e), artistData') ->
  artistData' = artistData /\
  (getData remote apiURL = inl e \/
   exists data, getData remote apiURL = inr data /\ reported remote data = [e]).
Proof.
  intros Hone Hrun.
  destruct (getData remote apiURL) as [e'|data] eqn:Hroot.
  - unfold gatherData in Hrun. rewrite Hroot in Hrun.
    injection Hrun as <- <-. split; [done|by left].
  - specialize (Hone data eq_refl).
    destruct (reported remote data) as [|e0 [|e1 es]] eqn:Hrep; [| |simpl in Hone; lia].
    + destruct (reported_nil remote data Hrep) as (a & l & r & d & Ha & Hl & Hr & Hd).
      rewrite (gatherData_success remote data sched artistData a l r d) in Hrun by done.
      by destruct (combine a l d r artistData) as [[?|?] ?].
    + rewrite (gatherData_single_failure remote data sched artistData e0 Hroot Hrep) in Hrun.
      injection Hrun as <- <-. split; [done|]. right. by exists data.
Qed.

(** X3: as long as no two of the four concurrent fetches fail together,
    [gatherData] returns nil only when the root fetch and all four
    concurrent fetches succeeded and no collection is shorter than
    artists; [artistData] has then grown by exactly one record per artist,
    joined position by position. *)
Theorem gatherData_nil_means_success (remote : Remote) (sched : list goroutine)
    (artistData artistData' : store) :
  (forall data, getData remote apiURL = inr data -> length (reported remote data) <= 1) ->
  gatherData remote sched artistData = (Ok None, artistData') ->
  exists data a l r d,
    getData remote apiURL = inr data /\
    getArtists remote (Data.Artists data) = inr a /\
    getLocations remote (Data.Locations data) = inr l /\
    getRelation remote (Data.Relation data) = inr r /\
    getDates remote (Data.Dates data) = inr d /\
    length a <= length (Locations.Index l) /\
    length a <= length (Dates.Index d) /\
    length a <= length (Relation.Index r) /\
    artistData' = artistData ++ storeOf (Join a l d r) /\
    length (Join a l d r) = length a.
Proof. apply gatherData_nil_inv. Qed.

(** ** The fan-out with at most one failing fetch *)

Section FanOutMore.

Variables (remote : Remote) (data : Data.t).

Lemma inv_run_spawn (sched : list goroutine) :
  inv remote data (run remote data sched spawn).
Proof. apply inv_run, inv_spawn. Qed.

(** Only a goroutine whose fetch failed is ever inside an append. *)
Lemma inAppend_failed (st : Locals) (g : goroutine) :
  inv remote data st -> inAppend (pcs st g) = true ->
  exists e, failure remote data g = Some e.
Proof.
  intros Hinv Hin. destruct (pcs st g) eqn:Hpc; try done.
  - exists err. by apply (inv_appending remote data _ Hinv).
  - exists err. by apply (inv_storing remote data _ Hinv g seen).
Qed.

Lemma two_failures (g1 g2 : goroutine) (e1 e2 : error) :
  g1 <> g2 ->
  failure remote data g1 = Some e1 -> failure remote data g2 = Some e2 ->
  2 <= length (reported remote data).
Proof.
  unfold reported. generalize (failure remote data). intros f Hne H1 H2. simpl.
  destruct g1, g2; try done; rewrite ?H1, ?H2;
    repeat match goal with |- context [f ?g] => destruct (f g) end; simpl; lia.
Qed.

Lemma racing_two (st : Locals) :
  racing st = true ->
  exists g1 g2, g1 <> g2 /\ inAppend (pcs st g1) = true /\ inAppend (pcs st g2) = true.
Proof.
  unfold racing. intros H.
  apply existsb_exists in H as (g1 & _ & H).
  apply existsb_exists in H as (g2 & _ & H).
  apply andb_true_iff in H as [H H2]. apply andb_true_iff in H as [Hne H1].
  apply bool_decide_eq_true in Hne.
  exists g1, g2. repeat split; try done. by destruct (pcs st g1).
Qed.

Lemma no_race (sched : list goroutine) :
  length (reported remote data) <= 1 -> racing (run remote data sched spawn) = false.
Proof.
  intros Hone. destruct (racing _) eqn:Hrace; [|done].
  destruct (racing_two _ Hrace) as (g1 & g2 & Hne & H1 & H2).
  destruct (inAppend_failed _ g1 (inv_run_spawn sched) H1) as [e1 Hf1].
  destruct (inAppend_failed _ g2 (inv_run_spawn sched) H2) as [e2 Hf2].
  pose proof (two_failures g1 g2 e1 e2 Hne Hf1 Hf2). lia.
Qed.

End FanOutMore.

(** X4: when at most one of the four fetches fails there is no race on
    [errs]: in no state the goroutines can reach are two of them inside
    their appends at once, whatever the interleaving. *)
Theorem single_failure_no_race (remote : Remote) (data : Data.t) (sched : list goroutine) :
  length (reported remote data) <= 1 ->
  racing (run remote data sched spawn) = false.
Proof. apply no_race. Qed.

(** X5: when at most one of the four fetches can fail, [gatherData] does
    not depend on the interleaving of its goroutines: any two schedules
    give the same result and the same [artistData]. *)
Theorem gatherData_schedule_independent (remote : Remote) (s1 s2 : list goroutine)
    (artistData : store) :
  (forall data, getData remote apiURL = inr data -> length (reported remote data) <= 1) ->
  gatherData remote s1 artistData = gatherData remote s2 artistData.
Proof.
  intros Hone.
  destruct (getData remote apiURL) as [e|data] eqn:Hroot;
    [unfold gatherData; by rewrite Hroot|].
  specialize (Hone data eq_refl).
  destruct (reported remote data) as [|e [|e' es]] eqn:Hrep; [| |simpl in Hone; lia].
  - destruct (reported_nil remote data Hrep) as (a & l & r & d & Ha & Hl & Hr & Hd).
    by rewrite !(gatherData_success remote data _ artistData a l r d).
  - unfold gatherData. rewrite Hroot. cbv zeta.
    by rewrite !(fanOut_errs_single remote data _ e Hrep).
Qed.

(** X6: when at most one of the four fetches fails, the unsynchronized
    append neither loses nor invents an error: after the barrier [errs]
    holds exactly the errors reported, none or the one, whatever the
    interleaving; so it does with the append taken in place, the header
    stored before the element. *)
Theorem errs_exact_without_race (remote : Remote) (data : Data.t)
    (sched sched' : list goroutine) :
  length (reported remote data) <= 1 ->
  errs (fanOut remote data sched) = reported remote data /\
  InPlace.errs (InPlace.fanOut remote data sched') = Some <$> reported remote data.
Proof.
  intros Hone. split.
  - destruct (reported remote data) as [|e [|e' es]] eqn:Hrep; [| |simpl in Hone; lia].
    + by apply fanOut_errs_clean.
    + by apply fanOut_errs_single.
  - apply inplace_errs_exact; [apply inplace_fanOut_inv|apply inplace_fanOut_done|done].
Qed.

(** X7: each goroutine decodes into a variable of its own. After the
    barrier every destination whose fetch succeeded holds exactly what was
    decoded for it, whatever the interleaving and whether or not the other
    fetches failed. *)
Theorem destinations_independent (remote : Remote) (data : Data.t) (sched : list goroutine) :
  let st := fanOut remote data sched in
  (forall a, getArtists remote (Data.Artists data) = inr a -> artists st = a) /\
  (forall l, getLocations remote (Data.Locations data) = inr l -> locations st = l) /\
  (forall r, getRelation remote (Data.Relation data) = inr r -> relation st = r) /\
  (forall d, getDates remote (Data.Dates data) = inr d -> dates st = d).
Proof.
  intros st. pose proof (fanOut_inv remote data sched) as Hinv. repeat split; intros v Hv.
  - by apply (inv_artists remote data _ Hinv); [apply fanOut_done|].
  - by apply (inv_locations remote data _ Hinv); [apply fanOut_done|].
  - by apply (inv_relation remote data _ Hinv); [apply fanOut_done|].
  - by apply (inv_dates remote data _ Hinv); [apply fanOut_done|].
Qed.

(** X20: with at most one failing fetch the two views of the append agree:
    [gatherData] over the in-place steps returns what it returns over the
    slice-level steps, whatever the two schedules. *)
Theorem gatherData_views_agree (remote : Remote) (s s' : list goroutine)
    (artistData : store) :
  (forall data, getData remote apiURL = inr data -> length (reported remote data) <= 1) ->
  InPlace.gatherData remote s artistData = gatherData remote s' artistData.
Proof. apply inplace_gatherData_agrees. Qed.

(** ** The rendering handlers, case by case *)

Section HandlersMore.

Variable executeTemplate : string -> tdata -> option error.

(** The three ways [singleArtistHandler] ends. *)
Lemma singleArtistHandler_cases (r : Request) (artistData : store) :
  (Method r <> "GET"%string /\
   singleArtistHandler executeTemplate r artistData
   = Ok [HttpError "405 ! Method not allowed" 405]) \/
  (Method r = "GET"%string /\
   (Atoi (Get (Query r) "id") = None \/
    exists k, Atoi (Get (Query r) "id") = Some k /\
              (k < 1 \/ k > Z.of_nat (length artistData))%Z) /\
   singleArtistHandler executeTemplate r artistData
   = Ok [HttpError "400 ! Invalid Artist ID" 400]) \/
  (exists k artist,
     Method r = "GET"%string /\
     Atoi (Get (Query r) "id") = Some k /\
     (1 <= k <= Z.of_nat (length artistData))%Z /\
     artistData !! Z.to_nat (k - 1) = Some artist /\
     singleArtistHandler executeTemplate r artistData
     = Ok (render executeTemplate "artist.html" (TRecord artist))).
Proof.
  unfold singleArtistHandler.
  destruct (String.eqb_spec (Method r) "GET") as [Hm|Hm]; simpl negb; cbv iota; [|by left].
  right. destruct (Atoi (Get (Query r) "id")) as [k|] eqn:Hid; [|left; by auto].
  destruct (Z.ltb_spec k 1) as [Hlow|Hlow]; simpl orb.
  { left. repeat split; try done. right. exists k. split; [done|lia]. }
  destruct (Z.gtb_spec k (Z.of_nat (length artistData))) as [Hhigh|Hhigh].
  { left. repeat split; try done. right. exists k. split; [done|lia]. }
  right. destruct (index_in_range artistData (k - 1)) as (artist & Hlookup & Hindex); [lia|].
  exists k, artist. rewrite Hindex. repeat split; try done; lia.
Qed.

Lemma MainGo_singleArtistHandler_cases (r : Request) (artistData : store) :
  (Method r <> "GET"%string /\
   MainGo.singleArtistHandler executeTemplate r artistData
   = Ok [HttpError "Method not allowed" 405]) \/
  (Method r = "GET"%string /\
   MainGo.singleArtistHandler executeTemplate r artistData
   = Ok [HttpError "Invalid Artist ID" 400]) \/
  (exists artist,
     Method r = "GET"%string /\
     MainGo.singleArtistHandler executeTemplate r artistData
     = Ok (MainGo.render executeTemplate "artist.html" (TRecord artist))).
Proof.
  unfold MainGo.singleArtistHandler.
  destruct (String.eqb_spec (Method r) "GET") as [Hm|Hm]; simpl negb; cbv iota; [|by left].
  right. destruct (Atoi (Get (Query r) "id")) as [k|] eqn:Hid; [|by left].
  destruct (Z.ltb_spec k 1) as [Hlow|Hlow]; simpl orb; [by left|].
  destruct (Z.gtb_spec k (Z.of_nat (length artistData))) as [Hhigh|Hhigh]; [by left|].
  right. destruct (index_in_range artistData (k - 1)) as (artist & Hlookup & Hindex); [lia|].
  exists artist. by rewrite Hindex.
Qed.

(** A rendering has one call, or two when the template fails. *)
Lemma render_calls (name : string) (d : tdata) (c : call) :
  c ∈ render executeTemplate name d ->
  c = ExecuteTemplate name d \/
  exists err, executeTemplate name d = Some err /\ c = HttpError ("500 ! " +:+ err) 500.
Proof.
  unfold render. intros [->|Hin]%elem_of_cons; [by left|]. right.
  destruct (executeTemplate name d) as [err|]; [|by apply elem_of_nil in Hin].
  apply list_elem_of_singleton in Hin. by exists err.
Qed.

Lemma MainGo_render_calls (name : string) (d : tdata) (c : call) :
  c ∈ MainGo.render executeTemplate name d ->
  c = ExecuteTemplate name d \/
  exists err, executeTemplate name d = Some err /\ c = HttpError ("Error: " +:+ err) 500.
Proof.
  unfold MainGo.render. intros [->|Hin]%elem_of_cons; [by left|]. right.
  destruct (executeTemplate name d) as [err|]; [|by apply elem_of_nil in Hin].
  apply list_elem_of_singleton in Hin. by exists err.
Qed.

Lemma render_500 (name : string) (d : tdata) (msg : string) :
  HttpError msg 500 ∈ render executeTemplate name d <->
  exists err, executeTemplate name d = Some err /\ msg = "500 ! " +:+ err.
Proof.
  split.
  - intros [?|(err & Herr & [= ->])]%render_calls; [done|]. by exists err.
  - intros (err & Herr & ->). unfold render. rewrite Herr. right. left.
Qed.

End HandlersMore.

(** X8: [singleArtistHandler] never panics: for every request (any
    method, any or no id parameter), every store and every template
    engine it returns normally, in both revisions. The guard on the id
    keeps [artistData[artistID-1]] within bounds. *)
Theorem singleArtistHandler_never_panics
    (executeTemplate : string -> tdata -> option error) (r : Request) (artistData : store) :
  (exists calls, singleArtistHandler executeTemplate r artistData = Ok calls) /\
  (exists calls, MainGo.singleArtistHandler executeTemplate r artistData = Ok calls).
Proof.
  split.
  - destruct (singleArtistHandler_cases executeTemplate r artistData)
      as [[_ ->]|[(_ & _ & ->)|(k & artist & _ & _ & _ & _ & ->)]]; by eexists.
  - destruct (MainGo_singleArtistHandler_cases executeTemplate r artistData)
      as [[_ ->]|[(_ & ->)|(artist & _ & ->)]]; by eexists.
Qed.

(** X9: [singleArtistHandler] executes a template only for a GET request
    whose id parameter parses to an integer [k] with [1 <= k <= N]; the
    template is then "artist.html" and its data the record at position
    [k - 1]. A missing, empty or non-numeric id, an id out of range, or an
    empty store never reaches a template. *)
Theorem artist_template_needs_valid_id
    (executeTemplate : string -> tdata -> option error) (r : Request) (artistData : store)
    (calls : list call) (name : string) (d : tdata) :
  singleArtistHandler executeTemplate r artistData = Ok calls ->
  ExecuteTemplate name d ∈ calls ->
  Method r = "GET"%string /\ name = "artist.html"%string /\
  exists k artist,
    Atoi (Get (Query r) "id") = Some k /\
    (1 <= k <= Z.of_nat (length artistData))%Z /\
    artistData !! Z.to_nat (k - 1) = Some artist /\
    d = TRecord artist.
Proof.
  intros Hrun Hin.
  destruct (singleArtistHandler_cases executeTemplate r artistData)
    as [[_ H]|[(_ & _ & H)|(k & artist & Hm & Hid & Hk & Hlookup & H)]];
    rewrite H in Hrun; injection Hrun as <-.
  - by apply list_elem_of_singleton in Hin.
  - by apply list_elem_of_singleton in Hin.
  - apply render_calls in Hin as [[= -> ->]|(err & _ & ?)]; [|done].
    repeat split; try done. by exists k, artist.
Qed.

(** X10: the three rendering handlers answer every request that is not a
    GET with the single call [http.Error(405)] and touch no template, in
    both revisions; [searchHandler] has no such guard and answers every
    method alike. *)
Theorem method_guard (unicodeLower : string -> string)
    (executeTemplate : string -> tdata -> option error) (r : Request) (artistData : store) :
  Method r <> "GET"%string ->
  indexHandler executeTemplate r artistData = Ok [HttpError "405 ! Method not allowed" 405] /\
  singleArtistHandler executeTemplate r artistData
  = Ok [HttpError "405 ! Method not allowed" 405] /\
  aboutHandler executeTemplate r artistData = Ok [HttpError "405 ! Method not allowed" 405] /\
  MainGo.indexHandler executeTemplate r artistData = Ok [HttpError "Method not allowed" 405] /\
  MainGo.singleArtistHandler executeTemplate r artistData
  = Ok [HttpError "Method not allowed" 405] /\
  searchHandler unicodeLower r artistData
  = searchHandler unicodeLower (mkRequest "GET" (Path r) (Query r)) artistData.
Proof.
  intros Hm.
  unfold indexHandler, singleArtistHandler, aboutHandler, MainGo.indexHandler,
    MainGo.singleArtistHandler.
  destruct (String.eqb_spec (Method r) "GET") as [?|_]; [done|].
  repeat split; reflexivity.
Qed.

(** X11: a rendering handler calls [http.Error] with status 500 exactly
    when the template it executed returned an error. If the execution
    failed, the call follows it, with the message "500 ! " and the
    engine's error; if it succeeded, the execution is all the handler
    does; and a 500 call is never made for another reason. (The property
    is about the call: what the client receives also depends on what the
    template had written before it failed.) *)
Theorem server_error_iff_template_failed
    (executeTemplate : string -> tdata -> option error)
    (h : Request -> store -> result (list call)) (r : Request) (artistData : store)
    (calls : list call) :
  h ∈ [indexHandler executeTemplate; singleArtistHandler executeTemplate;
       aboutHandler executeTemplate] ->
  h r artistData = Ok calls ->
  (forall name d err,
     ExecuteTemplate name d ∈ calls -> executeTemplate name d = Some err ->
     HttpError ("500 ! " +:+ err) 500 ∈ calls /\
     calls = [ExecuteTemplate name d; HttpError ("500 ! " +:+ err) 500]) /\
  (forall name d,
     ExecuteTemplate name d ∈ calls -> executeTemplate name d = None ->
     calls = [ExecuteTemplate name d]) /\
  (forall msg,
     HttpError msg 500 ∈ calls ->
     exists name d err,
       ExecuteTemplate name d ∈ calls /\
       executeTemplate name d = Some err /\ msg = "500 ! " +:+ err).
Proof.
  intros Hh Hrun.
  assert (Hshape : (exists m c, calls = [HttpError m c] /\ c <> 500%Z) \/
                   exists name d, calls = render executeTemplate name d).
  { rewrite !elem_of_cons, elem_of_nil in Hh. destruct Hh as [->|[->|[->|[]]]].
    - unfold indexHandler in Hrun.
      destruct (negb _); [injection Hrun as <-; left; by eexists _, _|].
      destruct (negb _); injection Hrun as <-; right; by eexists _, _.
    - destruct (singleArtistHandler_cases executeTemplate r artistData)
        as [[_ H]|[(_ & _ & H)|(k & artist & _ & _ & _ & _ & H)]];
        rewrite H in Hrun; injection Hrun as <-;
        [left; by eexists _, _|left; by eexists _, _|right; by eexists _, _].
    - unfold aboutHandler in Hrun.
      destruct (negb _); injection Hrun as <-; [left|right]; by eexists _, _. }
  destruct Hshape as [(m & c & -> & Hc)|(name0 & d0 & ->)].
  - split; [|split].
    + by intros name d err [=]%list_elem_of_singleton.
    + by intros name d [=]%list_elem_of_singleton.
    + intros msg [= _ <-]%list_elem_of_singleton. done.
  - split; [|split].
    + intros name d err [[= -> ->]|(err' & _ & ?)]%render_calls Herr; [|done].
      unfold render. rewrite Herr. split; [right; left|done].
    + intros name d [[= -> ->]|(err' & _ & ?)]%render_calls Herr; [|done].
      unfold render. by rewrite Herr.
    + intros msg (err & Herr & ->)%render_500.
      exists name0, d0, err. split; [left|done].
Qed.

(** X12: what [indexHandler] hands to a template. In the current
    revision it executes a template exactly for a GET: "index.html" with
    the whole store when the path is "/", "404.html" with no data for any
    other path, and nothing else. In the earlier revision (main.go) it
    executes a template exactly for a GET of "/", "index.html" with the
    whole store; a GET of any other path gets no template but
    [http.Error("Page not found", 404)]. *)
Theorem index_only_at_root (executeTemplate : string -> tdata -> option error)
    (r : Request) (artistData : store) :
  (exists calls,
     indexHandler executeTemplate r artistData = Ok calls /\
     forall name d,
       ExecuteTemplate name d ∈ calls <->
       Method r = "GET"%string /\
       ((Path r = "/"%string /\ name = "index.html"%string /\ d = TStore artistData) \/
        (Path r <> "/"%string /\ name = "404.html"%string /\ d = TNil))) /\
  (exists calls,
     MainGo.indexHandler executeTemplate r artistData = Ok calls /\
     (forall name d,
        ExecuteTemplate name d ∈ calls <->
        Method r = "GET"%string /\ Path r = "/"%string /\
        name = "index.html"%string /\ d = TStore artistData) /\
     (Method r = "GET"%string -> Path r <> "/"%string ->
      calls = [HttpError "Page not found" 404])).
Proof.
  unfold indexHandler, MainGo.indexHandler. split.
  - destruct (String.eqb_spec (Method r) "GET") as [Hm|Hm],
      (String.eqb_spec (Path r) "/") as [Hp|Hp]; simpl negb; cbv iota;
      eexists; (split; [reflexivity|]); intros name d; split.
    + intros [[= -> ->]|(err & _ & ?)]%render_calls; [|done]. auto.
    + intros (_ & [(_ & -> & ->)|(? & _)]); [left|done].
    + intros [[= -> ->]|(err & _ & ?)]%render_calls; [|done]. auto.
    + intros (_ & [(? & _)|(_ & -> & ->)]); [done|left].
    + by intros [=]%list_elem_of_singleton.
    + by intros (? & _).
    + by intros [=]%list_elem_of_singleton.
    + by intros (? & _).
  - destruct (String.eqb_spec (Method r) "GET") as [Hm|Hm],
      (String.eqb_spec (Path r) "/") as [Hp|Hp]; simpl negb; cbv iota;
      eexists; (split; [reflexivity|]); (split; [|done]); intros name d; split.
    + intros [[= -> ->]|(err & _ & ?)]%MainGo_render_calls; [|done]. auto.
    + intros (_ & _ & -> & ->). left.
    + by intros [=]%list_elem_of_singleton.
    + by intros (_ & ? & _).
    + by intros [=]%list_elem_of_singleton.
    + by intros (? & _).
    + by intros [=]%list_elem_of_singleton.
    + by intros (? & _).
Qed.

(** ** Search: what is a hit, and how answers compose *)

Lemma HasPrefix_spec (s p : string) :
  HasPrefix s p = true <-> exists post, s = p +:+ post.
Proof.
  revert s. induction p as [|c p IH]; intros s.
  - split; [by exists s|by destruct s].
  - destruct s as [|c' s]; simpl; [split; [done|by intros [post ?]]|].
    destruct (Ascii.eqb_spec c' c) as [->|Hne]; [rewrite IH|]; split.
    + intros [post ->]. by exists post.
    + intros [post [= ->]]. by exists post.
    + done.
    + intros [post [= ? _]]. done.
Qed.

(** [strings.Contains] finds exactly the substrings. *)
Lemma Contains_occurs (s sub : string) : Contains s sub = true <-> occurs sub s.
Proof.
  unfold occurs. induction s as [|c s IH].
  - change (Contains EmptyString sub) with (HasPrefix EmptyString sub || false).
    rewrite orb_false_r, HasPrefix_spec. split.
    + intros [post ->]. by exists EmptyString, post.
    + intros (pre & post & H). destruct pre; [by exists post|done].
  - change (Contains (String c s) sub)
      with (HasPrefix (String c s) sub || Contains s sub).
    rewrite orb_true_iff, HasPrefix_spec, IH. split.
    + intros [[post ->]|(pre & post & ->)].
      * by exists EmptyString, post.
      * by exists (String c pre), post.
    + intros (pre & post & H). destruct pre as [|c' pre]; [left; by exists post|].
      right. injection H as -> ->. by exists pre, post.
Qed.

Section SearchMore.

Variable unicodeLower : string -> string.

Lemma Search_app (query : string) (js1 js2 : list Joined) :
  Search unicodeLower query (js1 ++ js2)
  = Search unicodeLower query js1 ++ Search unicodeLower query js2.
Proof. unfold Search. apply bind_app. Qed.

Lemma storeOf_app (js1 js2 : list Joined) :
  storeOf (js1 ++ js2) = storeOf js1 ++ storeOf js2.
Proof. unfold storeOf. apply map_app. Qed.

Lemma recordHits_length (query : string) (j : Joined) :
  length (recordHits unicodeLower query j) <= testedFields j.
Proof.
  unfold recordHits, testedFields. rewrite !length_app, !length_map.
  repeat match goal with
    | |- context [length (filter ?P ?l)] =>
        let n := fresh "n" in
        pose proof (length_filter P l); set (n := length (filter P l)) in *; clearbody n
    end.
  set (a := length (Artist.Members (jArtist j))) in *.
  set (b := length (Locations.Locations (jLocations j))) in *. clearbody a b.
  destruct (matches _ _ (Artist.Name _)), (matches _ _ (Artist.FirstAlbum _)),
    (Contains _ _); cbn [length]; lia.
Qed.

Lemma Search_length (query : string) (js : list Joined) :
  length (Search unicodeLower query js) <= sum_list (testedFields <$> js).
Proof.
  unfold Search. induction js as [|j js IH]; [done|].
  change ((j :: js) ≫= recordHits unicodeLower (ToLower unicodeLower query))
    with (recordHits unicodeLower (ToLower unicodeLower query) j
          ++ (js ≫= recordHits unicodeLower (ToLower unicodeLower query))).
  rewrite length_app. pose proof (recordHits_length (ToLower unicodeLower query) j).
  change (sum_list (testedFields <$> j :: js))
    with (testedFields j + sum_list (testedFields <$> js)).
  lia.
Qed.

Lemma elem_of_if_singleton {A} (b : bool) (x y : A) :
  y ∈ (if b then [x] else []) <-> b = true /\ y = x.
Proof.
  destruct b.
  - rewrite list_elem_of_singleton. split; [by intros ->|by intros [_ ->]].
  - rewrite elem_of_nil. split; [done|by intros [? _]].
Qed.

Lemma elem_of_hits (P : string -> bool) (hit : string -> SearchResult.t)
    (l : list string) (h : SearchResult.t) :
  h ∈ map hit (filter (fun x => P x = true) l) <->
  exists x, h = hit x /\ x ∈ l /\ P x = true.
Proof.
  change (map hit (filter (fun x => P x = true) l))
    with (hit <$> filter (fun x => P x = true) l).
  split.
  - intros (x & -> & [HP Hin]%list_elem_of_filter)%list_elem_of_fmap. by exists x.
  - intros (x & -> & Hin & HP). apply list_elem_of_fmap. exists x.
    split; [done|]. by apply list_elem_of_filter.
Qed.

(** The hits of one record, field by field. *)
Lemma recordHits_elem (query : string) (j : Joined) (h : SearchResult.t) :
  h ∈ recordHits unicodeLower query j <->
  SearchResult.ID h = Artist.ID (jArtist j) /\
  ((SearchResult.Type_ h = "artist"%string /\
    SearchResult.Value h = Artist.Name (jArtist j) /\
    occurs query (ToLower unicodeLower (Artist.Name (jArtist j)))) \/
   (SearchResult.Type_ h = "member"%string /\
    SearchResult.Value h ∈ Artist.Members (jArtist j) /\
    occurs query (ToLower unicodeLower (SearchResult.Value h))) \/
   (SearchResult.Type_ h = "location"%string /\
    SearchResult.Value h ∈ Locations.Locations (jLocations j) /\
    occurs query (ToLower unicodeLower (SearchResult.Value h))) \/
   (SearchResult.Type_ h = "first album"%string /\
    SearchResult.Value h = Artist.FirstAlbum (jArtist j) /\
    occurs query (ToLower unicodeLower (Artist.FirstAlbum (jArtist j)))) \/
   (SearchResult.Type_ h = "creation date"%string /\
    SearchResult.Value h = Itoa (Artist.CreationDate (jArtist j)) /\
    occurs query (Itoa (Artist.CreationDate (jArtist j))))).
Proof.
  unfold recordHits, matches. cbv zeta.
  rewrite !elem_of_app, !elem_of_if_singleton, !elem_of_hits, !Contains_occurs.
  destruct h as [t v i]. simpl. split.
  - intros [[Hc [= -> -> ->]]|[(m & [= -> -> ->] & Hin & Hc)|[(l & [= -> -> ->] & Hin & Hc)
      |[[Hc [= -> -> ->]]|[Hc [= -> -> ->]]]]]];
      rewrite ?Contains_occurs in Hc; (split; [reflexivity|]).
    + left. split; [reflexivity|split; [reflexivity|assumption]].
    + right. left. split; [reflexivity|split; assumption].
    + right. right. left. split; [reflexivity|split; assumption].
    + right. right. right. left. split; [reflexivity|split; [reflexivity|assumption]].
    + right. right. right. right. split; [reflexivity|split; [reflexivity|assumption]].
  - intros [-> [(-> & -> & Hc)|[(-> & Hin & Hc)|[(-> & Hin & Hc)
      |[(-> & -> & Hc)|(-> & -> & Hc)]]]]].
    + by left.
    + right. left. exists v. by rewrite Contains_occurs.
    + right. right. left. exists v. by rewrite Contains_occurs.
    + right. right. right. by left.
    + right. right. right. by right.
Qed.

End SearchMore.

(** X13: what a search returns, in terms of substrings. On a store built
    by [gatherData], a hit is in the answer exactly when some record of
    the store has a tested field in which the lowered query occurs: the
    hit carries that record's id, the kind of the field and the field's
    value as stored. The name, the members, the locations and the first
    album are compared lowered; the creation year by its decimal digits. *)
Theorem search_hit_iff (unicodeLower : string -> string) (r : Request)
    (js : list Joined) (h : SearchResult.t) :
  let query := ToLower unicodeLower (Get (Query r) "q") in
  exists results,
    searchHandler unicodeLower r (storeOf js)
    = Ok [SetHeader "Content-Type" "application/json"; Encode results] /\
    (h ∈ results <->
     exists j, j ∈ js /\
       SearchResult.ID h = Artist.ID (jArtist j) /\
       ((SearchResult.Type_ h = "artist"%string /\
         SearchResult.Value h = Artist.Name (jArtist j) /\
         occurs query (ToLower unicodeLower (Artist.Name (jArtist j)))) \/
        (SearchResult.Type_ h = "member"%string /\
         SearchResult.Value h ∈ Artist.Members (jArtist j) /\
         occurs query (ToLower unicodeLower (SearchResult.Value h))) \/
        (SearchResult.Type_ h = "location"%string /\
         SearchResult.Value h ∈ Locations.Locations (jLocations j) /\
         occurs query (ToLower unicodeLower (SearchResult.Value h))) \/
        (SearchResult.Type_ h = "first album"%string /\
         SearchResult.Value h = Artist.FirstAlbum (jArtist j) /\
         occurs query (ToLower unicodeLower (Artist.FirstAlbum (jArtist j)))) \/
        (SearchResult.Type_ h = "creation date"%string /\
         SearchResult.Value h = Itoa (Artist.CreationDate (jArtist j)) /\
         occurs query (Itoa (Artist.CreationDate (jArtist j)))))).
Proof.
  intros query. eexists. split; [apply searchHandler_Search|].
  unfold Search. fold query. rewrite list_elem_of_bind. split.
  - intros (j & Hh & Hj). exists j. split; [done|]. by apply recordHits_elem.
  - intros (j & Hj & Hh). exists j. split; [|done]. by apply recordHits_elem.
Qed.

(** X14: answers compose with the store: the answer to a query on two
    stores put end to end is the answer on the first followed by the
    answer on the second. (So a store that holds every record twice
    answers every query with every hit twice.) *)
Theorem search_append (unicodeLower : string -> string) (r : Request)
    (js1 js2 : list Joined) :
  exists results1 results2,
    searchHandler unicodeLower r (storeOf js1)
    = Ok [SetHeader "Content-Type" "application/json"; Encode results1] /\
    searchHandler unicodeLower r (storeOf js2)
    = Ok [SetHeader "Content-Type" "application/json"; Encode results2] /\
    searchHandler unicodeLower r (storeOf js1 ++ storeOf js2)
    = Ok [SetHeader "Content-Type" "application/json"; Encode (results1 ++ results2)].
Proof.
  eexists _, _. split; [apply searchHandler_Search|]. split; [apply searchHandler_Search|].
  by rewrite <- storeOf_app, searchHandler_Search, Search_app.
Qed.

(** X15: whatever the query, a search returns at most one hit per tested
    field: no more than the sum over the records of one for the name, one
    per member, one per location, one for the first album and one for the
    creation year. *)
Theorem search_hits_bounded (unicodeLower : string -> string) (r : Request)
    (js : list Joined) :
  exists results,
    searchHandler unicodeLower r (storeOf js)
    = Ok [SetHeader "Content-Type" "application/json"; Encode results] /\
    length results <= sum_list (testedFields <$> js).
Proof.
  eexists. split; [apply searchHandler_Search|]. apply Search_length.
Qed.

(** ** Startup, and the handlers on the store it leaves *)

Lemma init_Serving_inv (remote : Remote) (sched : list goroutine)
    (parseGlob : option error) (artistData : store) :
  init remote sched parseGlob = Serving artistData ->
  parseGlob = None /\ gatherData remote sched [] = (Ok None, artistData).
Proof.
  unfold init. destruct (gatherData remote sched []) as [[[e|]|p] s]; try done.
  destruct parseGlob; [done|]. by intros [= ->].
Qed.

(** X16: as long as no two of the four concurrent fetches fail together,
    [init] lets the server start only on complete data: if it returns,
    the templates were parsed, the root fetch and all four concurrent
    fetches succeeded, and [artistData] holds exactly one record per
    artist, each joined with the entries at its position. *)
Theorem init_serves_complete_data (remote : Remote) (sched : list goroutine)
    (parseGlob : option error) (artistData : store) :
  (forall data, getData remote apiURL = inr data -> length (reported remote data) <= 1) ->
  init remote sched parseGlob = Serving artistData ->
  parseGlob = None /\
  exists data a l r d,
    getData remote apiURL = inr data /\
    getArtists remote (Data.Artists data) = inr a /\
    getLocations remote (Data.Locations data) = inr l /\
    getRelation remote (Data.Relation data) = inr r /\
    getDates remote (Data.Dates data) = inr d /\
    artistData = storeOf (Join a l d r) /\
    length artistData = length a.
Proof.
  intros Hone [Hparse Hrun]%init_Serving_inv. split; [done|].
  destruct (gatherData_nil_inv remote sched [] artistData Hone Hrun)
    as (data & a & l & r & d & ? & ? & ? & ? & ? & _ & _ & _ & -> & Hlen).
  exists data, a, l, r, d. repeat split; try done.
  rewrite app_nil_l. unfold storeOf. by rewrite length_map.
Qed.

(** X17: a failed fetch is fatal at startup. When the root fetch fails,
    or exactly one of the four concurrent fetches does, [init] ends in
    [log.Fatalf] with "Failed to gather data: " and the error of that
    fetch, whatever the interleaving and whether or not the templates
    parse; the server does not start. *)
Theorem init_fatal_on_failed_fetch (remote : Remote) (sched : list goroutine)
    (parseGlob : option error) :
  (forall e, getData remote apiURL = inl e ->
     init remote sched parseGlob = Fatal ("Failed to gather data: " +:+ e)) /\
  (forall data e, getData remote apiURL = inr data -> reported remote data = [e] ->
     init remote sched parseGlob = Fatal ("Failed to gather data: " +:+ e)).
Proof.
  split.
  - intros e Hroot. unfold init, gatherData. by rewrite Hroot.
  - intros data e Hroot Hrep. unfold init.
    by rewrite (gatherData_single_failure remote data sched [] e Hroot Hrep).
Qed.

(** X18: once [init] has returned, no handler panics: on the store it
    leaves, every request to the index, artist and about handlers is
    answered, and every search is answered with the JSON header and an
    encoded result; the type assertions of [searchHandler] all hold on
    the records [gatherData] built. *)
Theorem handlers_never_panic_after_init (remote : Remote) (sched : list goroutine)
    (parseGlob : option error) (artistData : store)
    (unicodeLower : string -> string) (executeTemplate : string -> tdata -> option error)
    (r : Request) :
  init remote sched parseGlob = Serving artistData ->
  (exists calls, indexHandler executeTemplate r artistData = Ok calls) /\
  (exists calls, singleArtistHandler executeTemplate r artistData = Ok calls) /\
  (exists calls, aboutHandler executeTemplate r artistData = Ok calls) /\
  (exists results,
     searchHandler unicodeLower r artistData
     = Ok [SetHeader "Content-Type" "application/json"; Encode results]).
Proof.
  intros [_ Hrun]%init_Serving_inv.
  destruct (gatherData_store_shape _ _ _ _ _ Hrun) as [js ->]. rewrite app_nil_l.
  repeat split.
  - unfold indexHandler. destruct (negb _); [by eexists|]. destruct (negb _); by eexists.
  - destruct (singleArtistHandler_cases executeTemplate r (storeOf js))
      as [[_ ->]|[(_ & _ & ->)|(k & artist & _ & _ & _ & _ & ->)]]; by eexists.
  - unfold aboutHandler. destruct (negb _); by eexists.
  - eexists. apply searchHandler_Search.
Qed.

(** X19: what the artist page shows after a startup in which the root
    fetch and all four concurrent fetches succeeded. For the artist at
    position [k] of the fetched list, a GET with the id parameter
    [k + 1] in decimal renders "artist.html" with the record built from
    that artist: its "Id" is the id the API declared for it, whether or
    not that equals [k + 1]. The page is addressed by position. *)
Theorem artist_page_by_position (remote : Remote) (sched : list goroutine)
    (parseGlob : option error) (artistData : store)
    (executeTemplate : string -> tdata -> option error) (r : Request)
    (data : Data.t) (a : list Artist.t) (l : Locations.t) (rel : Relation.t)
    (d : Dates.t) (k : nat) (ak : Artist.t) :
  init remote sched parseGlob = Serving artistData ->
  getData remote apiURL = inr data ->
  getArtists remote (Data.Artists data) = inr a ->
  getLocations remote (Data.Locations data) = inr l ->
  getRelation remote (Data.Relation data) = inr rel ->
  getDates remote (Data.Dates data) = inr d ->
  a !! k = Some ak ->
  (Z.of_nat k + 1 <= maxInt)%Z ->
  Method r = "GET"%string ->
  Get (Query r) "id" = Itoa (Z.of_nat k + 1) ->
  exists artist,
    singleArtistHandler executeTemplate r artistData
    = Ok (render executeTemplate "artist.html" (TRecord artist)) /\
    artist !! "Id"%string = Some (VInt (Artist.ID ak)) /\
    artist !! "Name"%string = Some (VString (Artist.Name ak)) /\
    artist !! "Members"%string = Some (VStrings (Artist.Members ak)).
Proof.
  intros [_ Hrun]%init_Serving_inv Hroot Ha Hl Hr Hd Hk Hmax Hm Hid.
  rewrite (gatherData_success remote data sched [] a l rel d) in Hrun by done.
  rewrite combine_any in Hrun.
  destruct (decide (length a <= length (Join a l d rel))) as [Hlen|]; [|done].
  injection Hrun as <-.
  pose proof (lookup_lt_Some _ _ _ Hk) as Hlt.
  destruct (lookup_lt_is_Some_2 (Join a l d rel) k) as [j Hj]; [lia|].
  destruct (Join_lookup_Some _ _ _ _ k j Hj) as (Haj & _).
  rewrite Hk in Haj. injection Haj as Haj.
  exists (recordOf j).
  split; [|rewrite Haj; split; [|split]; reflexivity].
  unfold singleArtistHandler.
  rewrite Hm, Hid, Atoi_Itoa by (unfold minInt; lia). simpl negb. cbv iota.
  pose proof (zip4_length_min a (Locations.Index l) (Dates.Index d) (Relation.Index rel))
    as Hmin. fold (Join a l d rel) in Hmin.
  assert (length (storeOf (Join a l d rel)) = length a) as Hstore
    by (unfold storeOf; rewrite length_map; lia).
  destruct (Z.ltb_spec (Z.of_nat k + 1) 1); [lia|]. simpl orb.
  destruct (Z.gtb_spec (Z.of_nat k + 1) (Z.of_nat (length (storeOf (Join a l d rel)))));
    [lia|].
  replace (Z.of_nat k + 1 - 1)%Z with (Z.of_nat k) by lia.
  rewrite index_nat. unfold storeOf. rewrite list_lookup_fmap, Hj. done.
Qed.

(** ** The further properties at concrete inputs *)

Lemma gatherData_error_origin_witness :
  exists data, getData remoteDatesDown apiURL = inr data /\
               "dates down"%string ∈ reported remoteDatesDown data.
Proof.
  destruct (gatherData_error_origin remoteDatesDown overlapping [] [] "dates down")
    as [_ [H|(data & Hroot & Hrep)]];
    [intros data [= <-]; simpl; lia|reflexivity|discriminate|].
  exists data. split; [done|]. rewrite Hrep. left.
Defined.

Lemma gatherData_nil_means_success_witness :
  exists data a l r d,
    getData remoteAligned apiURL = inr data /\
    getArtists remoteAligned (Data.Artists data) = inr a /\
    getLocations remoteAligned (Data.Locations data) = inr l /\
    getRelation remoteAligned (Data.Relation data) = inr r /\
    getDates remoteAligned (Data.Dates data) = inr d /\
    length a <= length (Locations.Index l) /\
    length a <= length (Dates.Index d) /\
    length a <= length (Relation.Index r) /\
    [recordOf queen] = [] ++ storeOf (Join a l d r) /\
    length (Join a l d r) = length a.
Proof.
  apply (gatherData_nil_means_success remoteAligned overlapping [] [recordOf queen]);
    [intros data [= <-]; simpl; lia|reflexivity].
Defined.

Lemma single_failure_no_race_witness :
  racing (run remoteDatesDown exampleData [GDates; GArtists; GDates; GLocations] spawn) = false.
Proof. apply single_failure_no_race. simpl. lia. Defined.

Lemma gatherData_schedule_independent_witness :
  gatherData remoteDatesDown overlapping [] = gatherData remoteDatesDown (alone GDates) [].
Proof.
  apply gatherData_schedule_independent. intros data [= <-]. simpl. lia.
Defined.

Lemma errs_exact_without_race_witness :
  errs (fanOut remoteDatesDown exampleData overlapping) = ["dates down"%string] /\
  InPlace.errs (InPlace.fanOut remoteDatesDown exampleData InPlace.torn)
  = [Some "dates down"%string].
Proof.
  apply (errs_exact_without_race remoteDatesDown exampleData overlapping InPlace.torn).
  simpl. lia.
Defined.

Lemma gatherData_views_agree_witness :
  InPlace.gatherData remoteDatesDown InPlace.torn [] = gatherData remoteDatesDown overlapping [].
Proof.
  apply gatherData_views_agree. intros data [= <-]. simpl. lia.
Defined.

Lemma artist_template_needs_valid_id_witness :
  exists k artist,
    Atoi "1" = Some k /\ (1 <= k <= 1)%Z /\
    storeOf [queen] !! Z.to_nat (k - 1) = Some artist.
Proof.
  destruct (artist_template_needs_valid_id noTemplateError
              (request "GET" "/Artist" "id" "1") (storeOf [queen])
              [ExecuteTemplate "artist.html" (TRecord (recordOf queen))]
              "artist.html" (TRecord (recordOf queen)))
    as (_ & _ & k & artist & Hk & Hrange & Hlookup & _); [reflexivity|left|].
  by exists k, artist.
Defined.

Lemma method_guard_witness :
  singleArtistHandler noTemplateError (request "POST" "/Artist" "id" "1") (storeOf [queen])
  = Ok [HttpError "405 ! Method not allowed" 405].
Proof.
  destruct (method_guard asciiOnly noTemplateError (request "POST" "/Artist" "id" "1")
              (storeOf [queen])) as (_ & H & _); [discriminate|exact H].
Defined.

Lemma server_error_iff_template_failed_witness :
  HttpError "500 ! template: pattern matches no files" 500
  ∈ [ExecuteTemplate "about.html" TNil;
     HttpError "500 ! template: pattern matches no files" 500].
Proof.
  destruct (server_error_iff_template_failed brokenTemplates (aboutHandler brokenTemplates)
              (request "GET" "/about" "" "") []
              [ExecuteTemplate "about.html" TNil;
               HttpError "500 ! template: pattern matches no files" 500])
    as (H & _ & _); [right; right; left|reflexivity|].
  apply (H "about.html"%string TNil "template: pattern matches no files"%string);
    [left|reflexivity].
Defined.

Lemma init_serves_complete_data_witness :
  exists data a l r d,
    getData remoteAligned apiURL = inr data /\
    getArtists remoteAligned (Data.Artists data) = inr a /\
    getLocations remoteAligned (Data.Locations data) = inr l /\
    getRelation remoteAligned (Data.Relation data) = inr r /\
    getDates remoteAligned (Data.Dates data) = inr d /\
    [recordOf queen] = storeOf (Join a l d r) /\
    length [recordOf queen] = length a.
Proof.
  apply (init_serves_complete_data remoteAligned overlapping None [recordOf queen]);
    [intros data [= <-]; simpl; lia|reflexivity].
Defined.

Lemma handlers_never_panic_after_init_witness :
  exists results,
    searchHandler asciiOnly (request "GET" "/search" "q" "lon") [recordOf queen]
    = Ok [SetHeader "Content-Type" "application/json"; Encode results].
Proof.
  apply (handlers_never_panic_after_init remoteAligned overlapping None [recordOf queen]
           asciiOnly noTemplateError (request "GET" "/search" "q" "lon")).
  reflexivity.
Defined.

Lemma artist_page_by_position_witness :
  exists artist,
    singleArtistHandler noTemplateError (request "GET" "/Artist" "id" "1") [recordOf queen]
    = Ok (render noTemplateError "artist.html" (TRecord artist)) /\
    artist !! "Id"%string = Some (VInt 1).
Proof.
  destruct (artist_page_by_position remoteAligned overlapping None [recordOf queen]
              noTemplateError (request "GET" "/Artist" "id" "1") exampleData
              [queenArtist] (Locations.mk [queenLocations]) (Relation.mk [queenRelation])
              (Dates.mk [queenDates]) 0 queenArtist)
    as (artist & Hrun & Hid & _); try reflexivity; [unfold maxInt; lia|].
  by exists artist.
Defined.
